(** * A shallow embedding of the broker endpoint in [app/main.go]

    The development follows the source file top to bottom: the machine
    integers of Go, the functions of [encoding/binary] the program
    calls, the [cursor] type with its readers, [parseHeader],
    [buildApiVersionsResponse] and the loop of [handleConn] over a finite
    input stream.  Run-time panics of Go (slice bounds, index out of range)
    are an outcome of their own, next to a returned value and a returned
    error. *)

From Stdlib Require Import ZArith List Bool Lia.
From Stdlib Require Import Strings.Byte.
Import ListNotations.
Local Open Scope Z_scope.

(** ** Machine integers

    Integers are [Z] with the wrap-around written out.  Go's [int] is taken
    to be 64 bits wide, as on every 64-bit target. *)

Module GoInt.

Definition wrap_signed (w : Z) (z : Z) : Z :=
  (z + 2 ^ (w - 1)) mod 2 ^ w - 2 ^ (w - 1).

Definition wrap_unsigned (w : Z) (z : Z) : Z := z mod 2 ^ w.

Definition to_int16 := wrap_signed 16.
Definition to_int32 := wrap_signed 32.
Definition to_int := wrap_signed 64.
Definition to_uint32 := wrap_unsigned 32.
Definition to_uint64 := wrap_unsigned 64.

Definition is_int16 (z : Z) : Prop := - 2 ^ 15 <= z < 2 ^ 15.
Definition is_int32 (z : Z) : Prop := - 2 ^ 31 <= z < 2 ^ 31.

(** [byte(x)]: the low eight bits of an integer. *)
Definition byte_of_Z (z : Z) : byte :=
  match Byte.of_N (Z.to_N (z mod 256)) with
  | Some b => b
  | None => x00
  end.

Definition Z_of_byte (b : byte) : Z := Z.of_N (Byte.to_N b).

End GoInt.
Import GoInt.

(** ** Outcomes of a call

    A method of [*cursor] returns a value, returns [io.ErrUnexpectedEOF]
    (the only error the cursor produces), or panics.  The cursor is mutated
    in place, so the first two carry the cursor as the call left it. *)

Record cursor : Type := mkCursor { b : list byte; off : Z }.

Inductive result (A : Type) : Type :=
| Ok (a : A) (c : cursor)
| Err (c : cursor)
| Panic.
Arguments Ok {A} a c.
Arguments Err {A} c.
Arguments Panic {A}.

Definition M (A : Type) : Type := cursor -> result A.

Definition ret {A} (a : A) : M A := fun c => Ok a c.

Definition bind {A B} (m : M A) (k : A -> M B) : M B :=
  fun c =>
    match m c with
    | Ok a c' => k a c'
    | Err c' => Err c'
    | Panic => Panic
    end.

Definition fail {A} : M A := fun c => Err c.

Declare Scope go_scope.
Delimit Scope go_scope with go.
Notation "x <- m ;; k" := (bind m (fun x => k))
  (at level 61, m at next level, right associativity) : go_scope.
Notation "m ;;; k" := (bind m (fun _ => k))
  (at level 61, right associativity) : go_scope.
Local Open Scope go_scope.

(** ** Slices

    Every buffer the program hands to a cursor comes from
    [make([]byte, n)], so its capacity is its length. *)

Definition len (s : list byte) : Z := Z.of_nat (length s).

(** [s[lo:]]; [None] is the bounds panic. *)
Definition slice_from (s : list byte) (lo : Z) : option (list byte) :=
  if (0 <=? lo) && (lo <=? len s) then Some (skipn (Z.to_nat lo) s) else None.

(** [s[lo:hi]]; [None] is the bounds panic. *)
Definition slice (s : list byte) (lo hi : Z) : option (list byte) :=
  if (0 <=? lo) && (lo <=? hi) && (hi <=? len s)
  then Some (firstn (Z.to_nat (hi - lo)) (skipn (Z.to_nat lo) s))
  else None.

(** ** [encoding/binary]

    The program calls four functions of Go's standard library; they are
    embedded from the library's source. *)

Module binary.

(** [BigEndian.Uint16(b)]: starts with the bounds check [_ = b[1]]. *)
Definition Uint16 (s : list byte) : option Z :=
  match s with
  | b0 :: b1 :: _ => Some (Z.lor (Z.shiftl (Z_of_byte b0) 8) (Z_of_byte b1))
  | _ => None
  end.

(** [BigEndian.Uint32(b)]: starts with the bounds check [_ = b[3]]. *)
Definition Uint32 (s : list byte) : option Z :=
  match s with
  | b0 :: b1 :: b2 :: b3 :: _ =>
      Some (Z.lor (Z.lor (Z.lor (Z.shiftl (Z_of_byte b0) 24)
                                (Z.shiftl (Z_of_byte b1) 16))
                         (Z.shiftl (Z_of_byte b2) 8))
                  (Z_of_byte b3))
  | _ => None
  end.

(** [BigEndian.PutUint32(b, v)]: writes [b[0..3]]; [None] is the bounds
    panic of [_ = b[3]]. *)
Definition PutUint32 (s : list byte) (v : Z) : option (list byte) :=
  match s with
  | _ :: _ :: _ :: _ :: rest =>
      Some (byte_of_Z (Z.shiftr v 24) :: byte_of_Z (Z.shiftr v 16)
            :: byte_of_Z (Z.shiftr v 8) :: byte_of_Z v :: rest)
  | _ => None
  end.

Definition MaxVarintLen64 : Z := 10.

(** The loop of [Uvarint(buf)]: [i] is the index of the head of [buf], [x]
    the value accumulated so far and [s] the shift.  Returns the value and
    the number of bytes read; that number is [0] when the buffer ends
    before a terminating byte and negative on a 64-bit overflow. *)
Fixpoint Uvarint_loop (buf : list byte) (i : Z) (x : Z) (s : Z) : Z * Z :=
  match buf with
  | [] => (0, 0)
  | v :: rest =>
      if i =? MaxVarintLen64 then (0, - (i + 1))
      else if Z_of_byte v <? 128 then
        if (i =? MaxVarintLen64 - 1) && (1 <? Z_of_byte v) then (0, - (i + 1))
        else (Z.lor x (to_uint64 (Z.shiftl (Z_of_byte v) s)), i + 1)
      else
        Uvarint_loop rest (i + 1)
          (Z.lor x (to_uint64 (Z.shiftl (Z.land (Z_of_byte v) 127) s))) (s + 7)
  end.

Definition Uvarint (buf : list byte) : Z * Z := Uvarint_loop buf 0 0 0.

End binary.

(** ** The cursor and its readers *)

Definition io_ErrUnexpectedEOF {A} : M A := fail.

(** [need] reports an error or nothing; the sum [c.off+n] is an [int]. *)
Definition need (n : Z) : M unit :=
  fun c => if len (b c) <? to_int (off c + n) then Err c else Ok tt c.

Definition set_off (o : Z) : M unit := fun c => Ok tt (mkCursor (b c) o).
Definition get_off : M Z := fun c => Ok (off c) c.

(** [c.off += n] *)
Definition advance (n : Z) : M unit :=
  fun c => Ok tt (mkCursor (b c) (to_int (off c + n))).

(** Evaluate a slice expression over the buffer, or panic. *)
Definition slicing (f : cursor -> option (list byte)) : M (list byte) :=
  fun c => match f c with Some s => Ok s c | None => Panic end.

Definition lift_panic {A} (o : option A) : M A :=
  fun c => match o with Some a => Ok a c | None => Panic end.

Definition i16 : M Z :=
  need 2 ;;;
  s <- slicing (fun c => slice_from (b c) (off c)) ;;
  u <- lift_panic (binary.Uint16 s) ;;
  advance 2 ;;;
  ret (to_int16 u).

Definition i32 : M Z :=
  need 4 ;;;
  s <- slicing (fun c => slice_from (b c) (off c)) ;;
  u <- lift_panic (binary.Uint32 s) ;;
  advance 4 ;;;
  ret (to_int32 u).

(** Legacy STRING (nullable): int16 length; a negative length is null. *)
Definition str16 : M (list byte) :=
  l <- i16 ;;
  if l <? 0 then ret []
  else
    need l ;;;
    s <- slicing (fun c => slice (b c) (off c) (to_int (off c + l))) ;;
    advance l ;;;
    ret s.

Definition uvarint : M Z :=
  s <- slicing (fun c => slice_from (b c) (off c)) ;;
  let '(v, n) := binary.Uvarint s in
  if n <=? 0 then io_ErrUnexpectedEOF
  else advance n ;;; ret v.

(** Flexible COMPACT_NULLABLE_STRING: uvarint(len+1); 0 is null. *)
Definition compactNullableString : M (list byte) :=
  n1 <- uvarint ;;
  if n1 =? 0 then ret []
  else
    let n := to_int (to_uint64 (n1 - 1)) in
    need n ;;;
    s <- slicing (fun c => slice (b c) (off c) (to_int (off c + n))) ;;
    advance n ;;;
    ret s.

(** The body of the [for] loop of [skipTagged]. *)
Definition skipTagged_entry : M unit :=
  uvarint ;;;
  sz <- uvarint ;;
  need (to_int sz) ;;;
  advance (to_int sz).

(** The loop counter is a [uint64] running from 0 up to [cnt], so the body
    runs [cnt] times unless it returns early; an early return, error or
    panic, is carried through the iterations that remain. *)
Definition skipTagged_loop (cnt : Z) : M unit :=
  fun c =>
    Z.iter cnt
      (fun (r : result unit) =>
         match r with
         | Ok _ c' => skipTagged_entry c'
         | other => other
         end)
      (Ok tt c).

Definition skipTagged : M unit :=
  cnt <- uvarint ;;
  skipTagged_loop cnt.

(** ** Request header *)

Record header : Type := mkHeader {
  apiKey : Z;
  apiVer : Z;
  corrID : Z;
  clientID : list byte
}.

(** [if v, err = m; err == nil { k v } ; h]: run [m]; on success continue
    with [k], on an error continue with [h] from the cursor as [m] left
    it. *)
Definition if_ok {A B} (m : M A) (k : A -> M B) (h : M B) : M B :=
  fun c =>
    match m c with
    | Ok a c' => k a c'
    | Err c' => h c'
    | Panic => Panic
    end.

(** The returned [ok] is [true] on [Ok] and [false] on [Err]. *)
Definition parseHeader : M header :=
  apiKey <- i16 ;;
  apiVer <- i16 ;;
  corrID <- i32 ;;
  save <- get_off ;;
  if_ok str16
    (fun clientID => ret (mkHeader apiKey apiVer corrID clientID))
    (set_off save ;;;
     clientID <- compactNullableString ;;
     skipTagged ;;;
     ret (mkHeader apiKey apiVer corrID clientID)).

(** ** Version policy and response encoder *)

Definition apiKeyApiVersions : Z := 18.
Definition maxSupportedAPIVer : Z := 4.
Definition errNone : Z := 0.
Definition errUnsupportedVer : Z := 35.

(** Step 4 of [handleConn]. *)
Definition decideErrCode (apiKey apiVer : Z) : Z :=
  if (apiKey =? apiKeyApiVersions)
     && ((maxSupportedAPIVer <? apiVer) || (apiVer <? 0))
  then errUnsupportedVer
  else errNone.

(** [make([]byte, n)] *)
Definition make (n : Z) : list byte := repeat x00 (Z.to_nat n).

(** [copy(dst, src)], as the contents of [dst] afterwards. *)
Definition copy (dst src : list byte) : list byte :=
  firstn (length dst) src ++ skipn (length src) dst.

(** Run [f] on the window [s[lo:hi]] of [s], which it may overwrite in
    place; [None] is a panic, of the slice expression or of [f]. *)
Definition on_window (s : list byte) (lo hi : Z)
    (f : list byte -> option (list byte)) : option (list byte) :=
  match slice s lo hi with
  | None => None
  | Some w =>
      match f w with
      | None => None
      | Some w' => Some (firstn (Z.to_nat lo) s ++ w' ++ skipn (Z.to_nat hi) s)
      end
  end.

(** [None] is a panic. *)
Definition buildApiVersionsResponse (corrID errCode : Z) : option (list byte) :=
  let body := [] in
  let body := body ++ [byte_of_Z (Z.shiftr errCode 8); byte_of_Z errCode] in
  let body := body ++ [x02] in
  let body := body ++ [x00; x12] in
  let body := body ++ [x00; x00] in
  let body := body ++ [x00; x04] in
  let body := body ++ [x00] in
  match binary.PutUint32 (make 4) 0 with
  | None => None
  | Some tmp =>
      let body := body ++ tmp in
      let body := body ++ [x00] in
      let resp := make (4 + 4 + len body) in
      match on_window resp 0 4
              (fun w => binary.PutUint32 w (to_uint32 (4 + len body))) with
      | None => None
      | Some resp =>
          match on_window resp 4 8
                  (fun w => binary.PutUint32 w (to_uint32 corrID)) with
          | None => None
          | Some resp =>
              on_window resp 8 (len resp) (fun w => Some (copy w body))
          end
      end
  end.

(** ** The connection loop

    A connection is the finite sequence of bytes the peer sends before it
    closes its side, together with the trace of what the handler has done
    so far.  Writes to the connection are taken to succeed; console output
    is left out. *)

Inductive event : Type :=
| EvReadLen                      (* io.ReadFull(conn, lenBuf) *)
| EvAllocPayload (n : Z)         (* make([]byte, frameSize) *)
| EvReadPayload (n : Z)          (* io.ReadFull(conn, payload) *)
| EvWrite (bs : list byte).      (* conn.Write(resp) *)

Inductive outcome : Type :=
| ConnEOF            (* the length read met the end of the stream *)
| NegativeFrameSize
| FrameTooLarge
| PayloadReadError
| MalformedHeader
| Crashed.           (* a panic, which ends the process *)

Record conn : Type := mkConn { inp : list byte; trace : list event }.

Definition log (st : conn) (e : event) (rest : list byte) : conn :=
  mkConn rest (trace st ++ [e]).

(** The bytes written to the peer, in order. *)
Fixpoint written (tr : list event) : list byte :=
  match tr with
  | [] => []
  | EvWrite bs :: tr' => bs ++ written tr'
  | _ :: tr' => written tr'
  end.

(** [io.ReadFull(conn, buf)] with [len(buf) = n]: the bytes read, or
    [None] when the stream ends first, and the rest of the stream. *)
Definition ReadFull (n : Z) (s : list byte) : option (list byte) * list byte :=
  if n <=? len s
  then (Some (firstn (Z.to_nat n) s), skipn (Z.to_nat n) s)
  else (None, []).

Definition maxFrameSize : Z := 10 * 1024 * 1024.

(** One pass through the body of the [for] loop: with [Some o] the handler
    returns, for the reason [o]; with [None] it goes round again. *)
Definition serveFrame (st : conn) : conn * option outcome :=
  match ReadFull 4 (inp st) with
  | (None, rest) => (log st EvReadLen rest, Some ConnEOF)
  | (Some lenBuf, rest) =>
      let st := log st EvReadLen rest in
      match binary.Uint32 lenBuf with
      | None => (st, Some Crashed)
      | Some u =>
          let frameSize := to_int32 u in
          if frameSize <? 0 then (st, Some NegativeFrameSize)
          else if maxFrameSize <? frameSize then (st, Some FrameTooLarge)
          else
            let st := log st (EvAllocPayload frameSize) (inp st) in
            match ReadFull frameSize (inp st) with
            | (None, rest) =>
                (log st (EvReadPayload frameSize) rest, Some PayloadReadError)
            | (Some payload, rest) =>
                let st := log st (EvReadPayload frameSize) rest in
                match parseHeader (mkCursor payload 0) with
                | Panic => (st, Some Crashed)
                | Err _ => (st, Some MalformedHeader)
                | Ok h _ =>
                    let errCode := decideErrCode (apiKey h) (apiVer h) in
                    match buildApiVersionsResponse (corrID h) errCode with
                    | None => (st, Some Crashed)
                    | Some resp => (log st (EvWrite resp) (inp st), None)
                    end
                end
            end
      end
  end.

Fixpoint handleConn_loop (fuel : nat) (st : conn) : option (conn * outcome) :=
  match fuel with
  | O => None
  | S fuel' =>
      match serveFrame st with
      | (st', Some o) => Some (st', o)
      | (st', None) => handleConn_loop fuel' st'
      end
  end.

(** Every pass that goes round again has taken at least four bytes off
    the stream, so this much fuel is enough ([handleConn_returns]). *)
Definition handleConn (stream : list byte) : option (conn * outcome) :=
  handleConn_loop (S (length stream)) (mkConn stream []).

(** ** The wire layout, in the words of the protocol

    Big-endian two's-complement fields and the fixed response body, written
    as plain concatenations; the encoder above is compared with these. *)

Definition be16 (z : Z) : list byte :=
  [byte_of_Z (Z.shiftr z 8); byte_of_Z z].

Definition be32 (z : Z) : list byte :=
  [byte_of_Z (Z.shiftr z 24); byte_of_Z (Z.shiftr z 16);
   byte_of_Z (Z.shiftr z 8); byte_of_Z z].

Definition api_entry : list byte := be16 18 ++ be16 0 ++ be16 4 ++ [x00].

Definition response_body (errCode : Z) : list byte :=
  be16 errCode ++ [x02] ++ api_entry ++ be32 0 ++ [x00].

Definition response_frame (corrID errCode : Z) : list byte :=
  be32 (4 + len (response_body errCode)) ++ be32 corrID
  ++ response_body errCode.

(** ** Reading a response back

    The peer's side of the exchange, built from the cursor's own readers: a
    response whose array of supported apis holds one entry. *)

Record response : Type := mkResponse {
  frameLength : Z;
  respCorrID : Z;
  errorCode : Z;
  apiCount : Z;
  apiEntry : Z * Z * Z;     (* api key, min version, max version *)
  throttleTimeMs : Z
}.

Definition readResponse : M response :=
  n <- i32 ;;
  cid <- i32 ;;
  e <- i16 ;;
  cnt1 <- uvarint ;;
  k <- i16 ;;
  lo <- i16 ;;
  hi <- i16 ;;
  skipTagged ;;;
  th <- i32 ;;
  skipTagged ;;;
  ret (mkResponse n cid e (cnt1 - 1) (k, lo, hi) th).

(** ** The request payload, field by field

    The fixed fields of a payload read straight off the bytes, and the
    second decoding strategy of [parseHeader] under a name of its own. *)

Definition byte_at (p : list byte) (i : nat) : Z := Z_of_byte (nth i p x00).

Definition int16_at (p : list byte) (i : nat) : Z :=
  to_int16 (byte_at p i * 256 + byte_at p (i + 1)).

Definition int32_at (p : list byte) (i : nat) : Z :=
  to_int32 (byte_at p i * 2 ^ 24 + byte_at p (i + 1) * 2 ^ 16
            + byte_at p (i + 2) * 2 ^ 8 + byte_at p (i + 3)).

Definition flexibleHeader (k v cid : Z) : M header :=
  s <- compactNullableString ;;
  skipTagged ;;;
  ret (mkHeader k v cid s).

(** ** Concrete streams *)

Module Examples.

(** apiKey 18, apiVersion 4, correlationId 7, legacy client id "test". *)
Definition payload : list byte :=
  [x00; x12; x00; x04; x00; x00; x00; x07; x00; x04; x74; x65; x73; x74].

Definition stream : list byte := [x00; x00; x00; x0e] ++ payload.

(** The response frame as the specification prints it: 24 bytes. *)
Definition printed_response : list byte :=
  [x00; x00; x00; x13; x00; x00; x00; x07; x00; x00; x02; x00; x12; x00; x00;
   x00; x04; x00; x00; x00; x00; x00; x00; x00].

(** The response frame the handler writes: 23 bytes. *)
Definition written_response : list byte :=
  [x00; x00; x00; x13; x00; x00; x00; x07; x00; x00; x02; x00; x12; x00; x00;
   x00; x04; x00; x00; x00; x00; x00; x00].

Definition fixed : list byte := [x00; x12; x00; x04; x00; x00; x00; x07].

(** The varint 2^63: nine continuation bytes, then 0x01. *)
Definition varint_2_63 : list byte :=
  [x80; x80; x80; x80; x80; x80; x80; x80; x80; x01].

(** The varint 2^64-1. *)
Definition varint_max : list byte :=
  [xff; xff; xff; xff; xff; xff; xff; xff; xff; x01].

(** A tagged-field block of one field, tag 0, of declared size 2^63. *)
Definition tagged_one : list byte := [x01; x00] ++ varint_2_63.

(** A tagged-field block announcing two fields, the first as above. *)
Definition tagged_two : list byte := [x02; x00] ++ varint_2_63.

(** Flexible headers: an empty compact client id (0x01), then the blocks
    above.  The legacy read fails on both: it sees the lengths 0x0101 and
    0x0102. *)
Definition payload_backwards : list byte := fixed ++ [x01] ++ tagged_one.
Definition payload_crash : list byte := fixed ++ [x01] ++ tagged_two.
Definition stream_crash : list byte := [x00; x00; x00; x15] ++ payload_crash.


(** A frame whose client id neither strategy can read: one byte, 0x05,
    after the fixed fields.  The legacy read lacks its second length byte;
    the compact read lacks the four bytes of content. *)
Definition payload_unreadable : list byte := fixed ++ [x05].
Definition stream_unreadable : list byte :=
  [x00; x00; x00; x09] ++ payload_unreadable.

(** A length prefix of -1. *)
Definition stream_negative_length : list byte :=
  [xff; xff; xff; xff; x00; x12].

End Examples.

(** What a whole connection writes to the peer. *)
Definition responses (stream : list byte) : option (list byte) :=
  option_map (fun r => written (trace (fst r))) (handleConn stream).

(** ** Well-formed cursors

    A cursor is well formed when its position lies inside its buffer.  The
    length bound stands for the address space: no Go slice comes near it,
    and the payloads of [handleConn] stop at 10 MiB. *)

Definition max_len : Z := 2 ^ 62.

Definition wf (c : cursor) : Prop :=
  0 <= off c <= len (b c) /\ len (b c) <= max_len.

(** The bytes from the position on. *)
Definition rest (c : cursor) : list byte := skipn (Z.to_nat (off c)) (b c).

(** The cursor moved [n] bytes on. *)
Definition moved (c : cursor) (n : Z) : cursor := mkCursor (b c) (off c + n).

Arguments to_int : simpl never.
Arguments to_int16 : simpl never.
Arguments to_int32 : simpl never.
Arguments to_uint64 : simpl never.
Arguments Z_of_byte : simpl never.

(** A reader keeps the buffer when the cursor it leaves, on a value or on
    an error, is over the same bytes. *)
Definition keeps_buffer {A} (m : M A) : Prop :=
  forall c,
    match m c with
    | Ok _ c' | Err c' => b c' = b c
    | Panic => True
    end.

(** The frame size the handler computes from the four length bytes. *)
Definition frameSize_of (lenBuf : list byte) : Z := int32_at lenBuf 0.

(** ** Requests on the wire

    A payload behind its length prefix, as the peer sends it, and the
    response the handler owes to a payload whose header it can decode. *)

Definition frame (p : list byte) : list byte := be32 (len p) ++ p.

Definition reply (p : list byte) : list byte :=
  match parseHeader (mkCursor p 0) with
  | Ok h _ => response_frame (corrID h) (decideErrCode (apiKey h) (apiVer h))
  | _ => []
  end.

Definition servable (p : list byte) : Prop :=
  len p <= maxFrameSize
  /\ exists h c', parseHeader (mkCursor p 0) = Ok h c'.

Definition is_response (f : list byte) : Prop :=
  exists cid e, f = response_frame cid e.

(** ** Headers on the wire

    The two encodings of a request header, as a peer produces them: fixed
    fields, then either a legacy string or a compact string followed by a
    block of tagged fields.  Varints enter through what the decoder makes of
    them. *)

Definition fixed_fields (k v cid : Z) : list byte :=
  be16 k ++ be16 v ++ be32 cid.

Definition legacy_string (s : list byte) : list byte := be16 (len s) ++ s.

Definition legacy_header (h : header) : list byte :=
  fixed_fields (apiKey h) (apiVer h) (corrID h) ++ legacy_string (clientID h).

Definition is_uint64 (z : Z) : Prop := 0 <= z < 2 ^ 64.

(** A byte with the continuation bit set. *)
Definition continuation (c : byte) : Prop := 128 <= Z_of_byte c.

(** The value of a base-128 integer, least significant group first:
    continuation bytes [cs], then the terminating byte [t]. *)
Fixpoint varint_value (cs : list byte) (t : byte) : Z :=
  match cs with
  | [] => Z_of_byte t
  | c :: cs' => (Z_of_byte c - 128) + 128 * varint_value cs' t
  end.

(** The standard encoding of an unsigned integer: seven bits a byte, least
    significant group first, the high bit set on every byte but the last.
    Ten bytes hold any [uint64]. *)
Fixpoint put_uvarint_upto (n : nat) (x : Z) : list byte :=
  match n with
  | O => []
  | S n' =>
      if x <? 128 then [byte_of_Z x]
      else byte_of_Z (Z.lor (Z.land x 127) 128)
           :: put_uvarint_upto n' (Z.shiftr x 7)
  end.

Definition put_uvarint (x : Z) : list byte := put_uvarint_upto 10 x.

(** [bs] is an encoding the decoder reads as [v], whatever follows it. *)
Definition encodes (bs : list byte) (v : Z) : Prop :=
  0 < len bs /\ forall tl, binary.Uvarint (bs ++ tl) = (v, len bs).

Definition compact_string (s : list byte) : list byte :=
  put_uvarint (len s + 1) ++ s.

Record field : Type := mkField { tag : Z; data : list byte }.

Definition field_bytes (f : field) : list byte :=
  put_uvarint (tag f) ++ put_uvarint (len (data f)) ++ data f.

Definition tagged_fields (fs : list field) : list byte :=
  put_uvarint (Z.of_nat (length fs)) ++ concat (map field_bytes fs).

(** Tags are [uint64] values. *)
Definition tags_fit (fs : list field) : Prop :=
  Forall (fun f => is_uint64 (tag f)) fs.

Definition flexible_header (h : header) (fs : list field) : list byte :=
  fixed_fields (apiKey h) (apiVer h) (corrID h)
  ++ compact_string (clientID h) ++ tagged_fields fs.

(** * Properties *)

(** ** Bytes and machine integers *)

Lemma Z_of_byte_range (x : byte) : 0 <= Z_of_byte x < 256.
Proof.
  unfold Z_of_byte. pose proof (Byte.to_N_bounded x) as H. lia.
Qed.

Lemma Z_of_byte_of_Z (z : Z) : Z_of_byte (byte_of_Z z) = z mod 256.
Proof.
  unfold Z_of_byte, byte_of_Z.
  assert (Hr : 0 <= z mod 256 < 256) by (apply Z.mod_pos_bound; lia).
  destruct (Byte.of_N (Z.to_N (z mod 256))) as [y|] eqn:E.
  - apply Byte.to_of_N in E. rewrite E. lia.
  - apply Byte.of_N_None_iff in E. lia.
Qed.

Lemma byte_of_Z_of_byte (x : byte) : byte_of_Z (Z_of_byte x) = x.
Proof.
  unfold byte_of_Z. pose proof (Z_of_byte_range x) as Hr.
  rewrite Z.mod_small by lia. unfold Z_of_byte.
  rewrite N2Z.id, Byte.of_to_N. reflexivity.
Qed.

Lemma byte_of_Z_eq (x y : Z) : x mod 256 = y mod 256 -> byte_of_Z x = byte_of_Z y.
Proof. unfold byte_of_Z. intros ->. reflexivity. Qed.

(** The byte at bit offset [k] of a 32-bit word does not depend on the
    bits above the word. *)
Lemma byte_of_uint32 (z k : Z) :
  0 <= k <= 24 ->
  byte_of_Z (Z.shiftr (to_uint32 z) k) = byte_of_Z (Z.shiftr z k).
Proof.
  intros Hk. apply byte_of_Z_eq.
  change 256 with (2 ^ 8). unfold to_uint32, wrap_unsigned.
  apply Z.bits_inj'. intros n Hn.
  rewrite !Z.testbit_mod_pow2 by lia.
  destruct (Z.ltb_spec n 8) as [E|E]; cbn [andb]; [|reflexivity].
  rewrite !Z.shiftr_spec by lia.
  rewrite Z.mod_pow2_bits_low by lia.
  reflexivity.
Qed.

Lemma byte_of_uint32_low (z : Z) : byte_of_Z (to_uint32 z) = byte_of_Z z.
Proof.
  rewrite <- (Z.shiftr_0_r (to_uint32 z)), byte_of_uint32 by lia.
  rewrite Z.shiftr_0_r. reflexivity.
Qed.

(** ** The response encoder *)

Lemma response_body_length (e : Z) : len (response_body e) = 15.
Proof. reflexivity. Qed.

Lemma response_frame_length (c e : Z) : len (response_frame c e) = 23.
Proof. reflexivity. Qed.

Lemma buildApiVersionsResponse_frame (c e : Z) :
  buildApiVersionsResponse c e = Some (response_frame c e).
Proof.
  cbv -[byte_of_Z Z.shiftr to_uint32].
  rewrite !byte_of_uint32, !byte_of_uint32_low by lia.
  repeat f_equal.
Qed.

(** C3: for every correlation id and error code the encoder returns (it
    never panics) the frame laid out as: the 4-byte big-endian length, equal
    to 4 plus the length of the body; the 4-byte big-endian correlation id;
    and the body, made of the 2-byte error code, the byte 0x02, the 7-byte
    entry (api key 18, min version 0, max version 4, tagged-field count 0),
    four zero bytes of throttle time and a last zero byte. *)
Theorem buildApiVersionsResponse_layout (corrID errCode : Z) :
  let body :=
    be16 errCode ++ [x02] ++ [x00; x12; x00; x00; x00; x04; x00]
    ++ [x00; x00; x00; x00] ++ [x00] in
  buildApiVersionsResponse corrID errCode
  = Some (be32 (4 + len body) ++ be32 corrID ++ body).
Proof.
  cbv zeta. rewrite buildApiVersionsResponse_frame. reflexivity.
Qed.

(** ** The version policy *)

(** C2: for every api key and api version (all integers, so every pair of
    int16 values) the decided error code is UNSUPPORTED_VERSION (35) exactly
    when the key is 18 and the version is negative or above 4, and NONE (0)
    in every other case; in particular for every key other than 18. *)
Theorem decideErrCode_spec (k v : Z) :
  (decideErrCode k v = 35 <-> k = 18 /\ (v < 0 \/ 4 < v))
  /\ (decideErrCode k v = 0 <-> ~ (k = 18 /\ (v < 0 \/ 4 < v))).
Proof.
  unfold decideErrCode, apiKeyApiVersions, maxSupportedAPIVer,
    errUnsupportedVer, errNone.
  destruct (Z.eqb_spec k 18) as [Hk|Hk];
    destruct (Z.ltb_spec 4 v) as [Hv|Hv];
    destruct (Z.ltb_spec v 0) as [Hn|Hn];
    cbn [andb orb]; repeat split; intros; try lia; try discriminate.
Qed.

Lemma to_int_small (z : Z) : - 2 ^ 63 <= z < 2 ^ 63 -> to_int z = z.
Proof.
  intros H. unfold to_int, wrap_signed.
  change (2 ^ (64 - 1)) with (2 ^ 63) in *.
  rewrite Z.mod_small; lia.
Qed.

Lemma to_int16_range (z : Z) : - 2 ^ 15 <= to_int16 z < 2 ^ 15.
Proof.
  unfold to_int16, wrap_signed. change (2 ^ (16 - 1)) with (2 ^ 15).
  pose proof (Z.mod_pos_bound (z + 2 ^ 15) (2 ^ 16)). lia.
Qed.

Lemma lor_mul_pow2 (a y k : Z) :
  0 <= k -> 0 <= y < 2 ^ k -> Z.lor (a * 2 ^ k) y = a * 2 ^ k + y.
Proof.
  intros Hk Hy.
  rewrite <- (Z.add_lor_land (a * 2 ^ k) y).
  assert (E : Z.land (a * 2 ^ k) y = 0).
  { apply Z.bits_inj'. intros n Hn.
    rewrite Z.land_spec, Z.bits_0.
    destruct (Z.lt_ge_cases n k) as [L|G].
    - rewrite Z.mul_pow2_bits_low by lia. reflexivity.
    - assert (P : 2 ^ k <= 2 ^ n) by (apply Z.pow_le_mono_r; lia).
      replace (Z.testbit y n) with false; [apply andb_false_r|].
      symmetry. apply Z.testbit_false; [lia|].
      rewrite Z.div_small by lia. reflexivity. }
  rewrite E. lia.
Qed.

Lemma Uint16_value (x y : byte) (tl : list byte) :
  binary.Uint16 (x :: y :: tl) = Some (Z_of_byte x * 256 + Z_of_byte y).
Proof.
  unfold binary.Uint16. rewrite Z.shiftl_mul_pow2 by lia.
  pose proof (Z_of_byte_range y).
  rewrite lor_mul_pow2 by lia. reflexivity.
Qed.

Lemma Uint32_value (x y z w : byte) (tl : list byte) :
  binary.Uint32 (x :: y :: z :: w :: tl)
  = Some (Z_of_byte x * 2 ^ 24 + Z_of_byte y * 2 ^ 16
          + Z_of_byte z * 2 ^ 8 + Z_of_byte w).
Proof.
  unfold binary.Uint32. rewrite !Z.shiftl_mul_pow2 by lia.
  pose proof (Z_of_byte_range x). pose proof (Z_of_byte_range y).
  pose proof (Z_of_byte_range z). pose proof (Z_of_byte_range w).
  rewrite (lor_mul_pow2 (Z_of_byte x) _ 24) by lia.
  replace (Z_of_byte x * 2 ^ 24 + Z_of_byte y * 2 ^ 16)
    with ((Z_of_byte x * 2 ^ 8 + Z_of_byte y) * 2 ^ 16) by ring.
  rewrite (lor_mul_pow2 _ _ 16) by lia.
  replace ((Z_of_byte x * 2 ^ 8 + Z_of_byte y) * 2 ^ 16 + Z_of_byte z * 2 ^ 8)
    with ((Z_of_byte x * 2 ^ 16 + Z_of_byte y * 2 ^ 8 + Z_of_byte z) * 2 ^ 8)
    by ring.
  rewrite (lor_mul_pow2 _ _ 8) by lia.
  apply f_equal. ring.
Qed.

Lemma len_cons (x : byte) (s : list byte) : len (x :: s) = 1 + len s.
Proof. unfold len. cbn [length]. lia. Qed.

Lemma len_nil : len [] = 0.
Proof. reflexivity. Qed.

Lemma len_nonneg (s : list byte) : 0 <= len s.
Proof. unfold len. lia. Qed.

Lemma len_app (s t : list byte) : len (s ++ t) = len s + len t.
Proof. unfold len. rewrite length_app. lia. Qed.

Lemma len_rest (c : cursor) : wf c -> len (rest c) = len (b c) - off c.
Proof.
  intros [[H0 H1] _]. unfold rest, len in *. rewrite length_skipn. lia.
Qed.

Lemma slice_from_rest (c : cursor) :
  wf c -> slice_from (b c) (off c) = Some (rest c).
Proof.
  intros [[H0 H1] _]. unfold slice_from.
  destruct (Z.leb_spec 0 (off c)); [|lia].
  destruct (Z.leb_spec (off c) (len (b c))); [|lia].
  reflexivity.
Qed.

Lemma slice_rest (c : cursor) (n : Z) :
  wf c -> 0 <= n -> off c + n <= len (b c) ->
  slice (b c) (off c) (off c + n) = Some (firstn (Z.to_nat n) (rest c)).
Proof.
  intros [[H0 H1] _] Hn Hle. unfold slice.
  destruct (Z.leb_spec 0 (off c)); [|lia].
  destruct (Z.leb_spec (off c) (off c + n)); [|lia].
  destruct (Z.leb_spec (off c + n) (len (b c))); [|lia].
  cbn [andb]. replace (off c + n - off c) with n by lia. reflexivity.
Qed.

Lemma wf_moved (c : cursor) (n : Z) :
  wf c -> 0 <= n -> off c + n <= len (b c) -> wf (moved c n).
Proof. unfold wf, moved. cbn [b off]. lia. Qed.

Lemma rest_moved (c : cursor) (n : nat) :
  wf c -> rest (moved c (Z.of_nat n)) = skipn n (rest c).
Proof.
  intros [[H0 H1] _]. unfold rest, moved. cbn [b off].
  rewrite skipn_skipn. f_equal. lia.
Qed.

Lemma need_exact (c : cursor) (n : Z) :
  wf c -> 0 <= n < max_len ->
  need n c = if len (b c) <? off c + n then Err c else Ok tt c.
Proof.
  intros [[H0 H1] H2] Hn. unfold need, max_len in *.
  rewrite to_int_small by lia. reflexivity.
Qed.

Lemma moved_moved (c : cursor) (n m : Z) : moved (moved c n) m = moved c (n + m).
Proof. unfold moved. cbn [b off]. f_equal. lia. Qed.

Lemma advance_exact (c : cursor) (n : Z) :
  wf c -> 0 <= n < max_len -> advance n c = Ok tt (moved c n).
Proof.
  intros [[H0 H1] H2] Hn. unfold advance, moved, max_len in *.
  rewrite to_int_small by lia. reflexivity.
Qed.

(** What each fixed-width reader does on a well-formed cursor. *)
Lemma i16_spec (c : cursor) :
  wf c ->
  i16 c = match rest c with
          | x :: y :: _ =>
              Ok (to_int16 (Z_of_byte x * 256 + Z_of_byte y)) (moved c 2)
          | _ => Err c
          end.
Proof.
  intros W. unfold i16, bind.
  rewrite need_exact by (auto; unfold max_len; lia).
  pose proof (len_rest c W) as L. pose proof (len_nonneg (b c)) as P.
  destruct (rest c) as [|x [|y tl]] eqn:E; rewrite ?len_cons, ?len_nil in L.
  1,2: destruct (Z.ltb_spec (len (b c)) (off c + 2)); [reflexivity | lia].
  pose proof (len_nonneg tl) as Q.
  destruct (Z.ltb_spec (len (b c)) (off c + 2)); [lia|].
  unfold slicing. rewrite slice_from_rest by auto. rewrite E.
  unfold lift_panic. rewrite Uint16_value.
  rewrite advance_exact by (auto; unfold max_len; lia).
  reflexivity.
Qed.

Lemma i32_spec (c : cursor) :
  wf c ->
  i32 c = match rest c with
          | x :: y :: z :: w :: _ =>
              Ok (to_int32 (Z_of_byte x * 2 ^ 24 + Z_of_byte y * 2 ^ 16
                            + Z_of_byte z * 2 ^ 8 + Z_of_byte w))
                 (moved c 4)
          | _ => Err c
          end.
Proof.
  intros W. unfold i32, bind.
  rewrite need_exact by (auto; unfold max_len; lia).
  pose proof (len_rest c W) as L. pose proof (len_nonneg (b c)) as P.
  destruct (rest c) as [|x [|y [|z [|w tl]]]] eqn:E;
    rewrite ?len_cons, ?len_nil in L.
  1-4: destruct (Z.ltb_spec (len (b c)) (off c + 4)); [reflexivity | lia].
  pose proof (len_nonneg tl) as Q.
  destruct (Z.ltb_spec (len (b c)) (off c + 4)); [lia|].
  unfold slicing. rewrite slice_from_rest by auto. rewrite E.
  unfold lift_panic. rewrite Uint32_value.
  rewrite advance_exact by (auto; unfold max_len; lia).
  reflexivity.
Qed.

Lemma str16_spec (c : cursor) :
  wf c ->
  str16 c = match rest c with
            | x :: y :: tl =>
                let l := to_int16 (Z_of_byte x * 256 + Z_of_byte y) in
                if l <? 0 then Ok [] (moved c 2)
                else if len tl <? l then Err (moved c 2)
                else Ok (firstn (Z.to_nat l) tl) (moved c (2 + l))
            | _ => Err c
            end.
Proof.
  intros W. unfold str16. unfold bind at 1. rewrite i16_spec by auto.
  pose proof (len_rest c W) as L.
  destruct (rest c) as [|x [|y tl]] eqn:E; try reflexivity.
  rewrite !len_cons in L. pose proof (len_nonneg tl) as Q.
  cbv zeta.
  pose proof (to_int16_range (Z_of_byte x * 256 + Z_of_byte y)) as R.
  set (l := to_int16 (Z_of_byte x * 256 + Z_of_byte y)) in *.
  destruct (Z.ltb_spec l 0) as [N|N]; [reflexivity|].
  assert (W2 : wf (moved c 2)) by (apply wf_moved; auto; lia).
  assert (T : rest (moved c 2) = tl).
  { change 2 with (Z.of_nat 2). rewrite rest_moved by auto. rewrite E.
    reflexivity. }
  unfold bind.
  rewrite need_exact by (auto; unfold max_len; lia).
  cbn [b off moved].
  destruct (Z.ltb_spec (len (b c)) (off c + 2 + l));
    destruct (Z.ltb_spec (len tl) l); try lia; [reflexivity|].
  unfold slicing.
  destruct W as [[W0 W1] W3]. unfold max_len in W3.
  rewrite to_int_small by (cbn [b off moved]; lia).
  rewrite slice_rest by (auto; cbn [b off moved]; lia).
  rewrite T.
  rewrite advance_exact by (auto; unfold max_len; lia).
  rewrite moved_moved. reflexivity.
Qed.

(** Big-endian fields decode to what was encoded. *)
Lemma be16_value (z : Z) :
  Z_of_byte (byte_of_Z (Z.shiftr z 8)) * 256 + Z_of_byte (byte_of_Z z)
  = z mod 2 ^ 16.
Proof.
  rewrite !Z_of_byte_of_Z, Z.shiftr_div_pow2 by lia.
  change (2 ^ 8) with 256. change (2 ^ 16) with (256 * 256).
  rewrite Z.rem_mul_r by lia. lia.
Qed.

Lemma be32_value (z : Z) :
  Z_of_byte (byte_of_Z (Z.shiftr z 24)) * 2 ^ 24
  + Z_of_byte (byte_of_Z (Z.shiftr z 16)) * 2 ^ 16
  + Z_of_byte (byte_of_Z (Z.shiftr z 8)) * 2 ^ 8
  + Z_of_byte (byte_of_Z z)
  = z mod 2 ^ 32.
Proof.
  rewrite !Z_of_byte_of_Z, !Z.shiftr_div_pow2 by lia.
  change (2 ^ 8) with 256. change (2 ^ 16) with (256 * 256).
  change (2 ^ 24) with (256 * (256 * 256)).
  change (2 ^ 32) with (256 * (256 * (256 * 256))).
  rewrite <- !Z.div_div by lia.
  rewrite !Z.rem_mul_r by lia. lia.
Qed.

Lemma to_int16_mod (z : Z) : is_int16 z -> to_int16 (z mod 2 ^ 16) = z.
Proof.
  unfold is_int16, to_int16, wrap_signed. intros H.
  change (2 ^ (16 - 1)) with (2 ^ 15).
  rewrite Zplus_mod_idemp_l, Z.mod_small; lia.
Qed.

Lemma to_int32_mod (z : Z) : is_int32 z -> to_int32 (z mod 2 ^ 32) = z.
Proof.
  unfold is_int32, to_int32, wrap_signed. intros H.
  change (2 ^ (32 - 1)) with (2 ^ 31).
  rewrite Zplus_mod_idemp_l, Z.mod_small; lia.
Qed.

Lemma i16_be16 (c : cursor) (z : Z) (tl : list byte) :
  wf c -> is_int16 z -> rest c = be16 z ++ tl -> i16 c = Ok z (moved c 2).
Proof.
  intros W Hz E. rewrite i16_spec by auto. rewrite E. cbn [be16 app].
  rewrite be16_value, to_int16_mod by auto. reflexivity.
Qed.

Lemma i32_be32 (c : cursor) (z : Z) (tl : list byte) :
  wf c -> is_int32 z -> rest c = be32 z ++ tl -> i32 c = Ok z (moved c 4).
Proof.
  intros W Hz E. rewrite i32_spec by auto. rewrite E. cbn [be32 app].
  rewrite be32_value, to_int32_mod by auto. reflexivity.
Qed.

(** ** Round trip of the response *)

Lemma wf_start (p : list byte) : len p <= max_len -> wf (mkCursor p 0).
Proof. unfold wf. cbn [b off]. pose proof (len_nonneg p). lia. Qed.

(** C4: for every correlation id (int32) and error code (int16), reading
    the encoded response back recovers them: the first four bytes decode to
    the number of bytes after them, the next four to the correlation id, the
    next two to the error code, and the rest is one entry with api key 18,
    min version 0, max version 4, then throttle time 0; the reader ends at
    the end of the frame. *)
Theorem response_round_trip (c e : Z) :
  is_int32 c -> is_int16 e ->
  exists resp,
    buildApiVersionsResponse c e = Some resp
    /\ readResponse (mkCursor resp 0)
       = Ok (mkResponse (len resp - 4) c e 1 (18, 0, 4) 0)
            (mkCursor resp (len resp)).
Proof.
  intros Hc He. exists (response_frame c e).
  split; [apply buildApiVersionsResponse_frame|].
  rewrite response_frame_length.
  assert (W0 : wf (mkCursor (response_frame c e) 0))
    by (apply wf_start; rewrite response_frame_length; unfold max_len; lia).
  assert (W4 : wf (moved (mkCursor (response_frame c e) 0) 4))
    by (apply wf_moved; auto; cbn [b off]; rewrite ?response_frame_length; lia).
  assert (W8 : wf (moved (moved (mkCursor (response_frame c e) 0) 4) 4))
    by (apply wf_moved; auto; cbn [b off moved];
        rewrite ?response_frame_length; lia).
  unfold readResponse.
  unfold bind at 1.
  rewrite (i32_be32 _ 19 (be32 c ++ response_body e))
    by (auto; try reflexivity; unfold is_int32; lia).
  unfold bind at 1.
  rewrite (i32_be32 _ c (response_body e)) by (auto; reflexivity).
  unfold bind at 1.
  rewrite (i16_be16 _ e ([x02] ++ api_entry ++ be32 0 ++ [x00]))
    by (auto; reflexivity).
  unfold moved, response_frame, response_body, be32, be16. cbn [b off app].
  generalize (byte_of_Z (Z.shiftr c 24)) (byte_of_Z (Z.shiftr c 16))
    (byte_of_Z (Z.shiftr c 8)) (byte_of_Z c)
    (byte_of_Z (Z.shiftr e 8)) (byte_of_Z e).
  intros c3 c2 c1 c0 e1 e0.
  vm_compute. reflexivity.
Qed.

(** ** No reader touches the buffer *)

Create HintDb cursor discriminated.

Lemma keeps_ret {A} (a : A) : keeps_buffer (ret a).
Proof. intros c. reflexivity. Qed.

Lemma keeps_fail {A} : keeps_buffer (@fail A).
Proof. intros c. reflexivity. Qed.

Lemma keeps_need (n : Z) : keeps_buffer (need n).
Proof. intros c. unfold need. destruct (_ <? _); reflexivity. Qed.

Lemma keeps_advance (n : Z) : keeps_buffer (advance n).
Proof. intros c. reflexivity. Qed.

Lemma keeps_set_off (o : Z) : keeps_buffer (set_off o).
Proof. intros c. reflexivity. Qed.

Lemma keeps_get_off : keeps_buffer get_off.
Proof. intros c. reflexivity. Qed.

Lemma keeps_slicing (f : cursor -> option (list byte)) :
  keeps_buffer (slicing f).
Proof. intros c. unfold slicing. destruct (f c); auto. Qed.

Lemma keeps_lift_panic {A} (o : option A) : keeps_buffer (lift_panic o).
Proof. intros c. unfold lift_panic. destruct o; auto. Qed.

Lemma keeps_bind {A B} (m : M A) (k : A -> M B) :
  keeps_buffer m -> (forall a, keeps_buffer (k a)) -> keeps_buffer (bind m k).
Proof.
  intros Hm Hk c. unfold bind. specialize (Hm c).
  destruct (m c) as [a c'| c' |]; auto.
  specialize (Hk a c'). destruct (k a c'); congruence.
Qed.

Lemma keeps_if_ok {A B} (m : M A) (k : A -> M B) (h : M B) :
  keeps_buffer m -> (forall a, keeps_buffer (k a)) -> keeps_buffer h ->
  keeps_buffer (if_ok m k h).
Proof.
  intros Hm Hk Hh c. unfold if_ok. specialize (Hm c).
  destruct (m c) as [a c'| c' |]; auto.
  - specialize (Hk a c'). destruct (k a c'); congruence.
  - specialize (Hh c'). destruct (h c'); congruence.
Qed.

Lemma keeps_if {A} (t : bool) (m n : M A) :
  keeps_buffer m -> keeps_buffer n -> keeps_buffer (if t then m else n).
Proof. destruct t; auto. Qed.

#[local] Hint Resolve keeps_ret keeps_fail keeps_need keeps_advance
  keeps_set_off keeps_get_off keeps_slicing keeps_lift_panic : cursor.
#[local] Hint Extern 2 (keeps_buffer (bind _ _)) =>
  apply keeps_bind; [ | intro ] : cursor.
#[local] Hint Extern 2 (keeps_buffer (if _ then _ else _)) =>
  apply keeps_if : cursor.

Lemma keeps_i16 : keeps_buffer i16.
Proof. unfold i16. auto 12 with cursor. Qed.

Lemma keeps_i32 : keeps_buffer i32.
Proof. unfold i32. auto 12 with cursor. Qed.

#[local] Hint Resolve keeps_i16 keeps_i32 : cursor.

Lemma keeps_str16 : keeps_buffer str16.
Proof. unfold str16. auto 12 with cursor. Qed.

Lemma keeps_uvarint : keeps_buffer uvarint.
Proof.
  unfold uvarint. apply keeps_bind; [auto with cursor|].
  intros s. destruct (binary.Uvarint s) as [v n].
  unfold io_ErrUnexpectedEOF. auto 8 with cursor.
Qed.

#[local] Hint Resolve keeps_str16 keeps_uvarint : cursor.

Lemma keeps_compactNullableString : keeps_buffer compactNullableString.
Proof. unfold compactNullableString. auto 12 with cursor. Qed.

Lemma keeps_skipTagged_entry : keeps_buffer skipTagged_entry.
Proof. unfold skipTagged_entry. auto 12 with cursor. Qed.

Lemma keeps_skipTagged_loop (cnt : Z) : keeps_buffer (skipTagged_loop cnt).
Proof.
  intros c. unfold skipTagged_loop.
  destruct cnt as [|n|n]; try reflexivity.
  cbn [Z.iter].
  apply Pos.iter_invariant; [|reflexivity].
  intros [a c'| c' |] H; auto.
  pose proof (keeps_skipTagged_entry c') as K.
  destruct (skipTagged_entry c'); congruence.
Qed.

#[local] Hint Resolve keeps_compactNullableString keeps_skipTagged_loop : cursor.

Lemma keeps_skipTagged : keeps_buffer skipTagged.
Proof. unfold skipTagged. auto with cursor. Qed.

#[local] Hint Resolve keeps_skipTagged : cursor.

Lemma keeps_parseHeader : keeps_buffer parseHeader.
Proof.
  unfold parseHeader.
  repeat (apply keeps_bind; [auto with cursor | intro]).
  apply keeps_if_ok; auto 12 with cursor.
Qed.

(** ** Variable-length integers *)

(** The count [Uvarint] returns is an error code (zero or negative) or
    the number of bytes read: past the index the loop started at, inside
    the buffer and at most ten. *)
Lemma Uvarint_loop_count (buf : list byte) :
  forall i x s,
    0 <= i <= 10 ->
    let n := snd (binary.Uvarint_loop buf i x s) in
    n <= 0 \/ (i < n <= i + len buf /\ n <= 10).
Proof.
  induction buf as [|v tl IH]; intros i x s Hi; cbn [binary.Uvarint_loop].
  - left. cbn. lia.
  - unfold binary.MaxVarintLen64. rewrite len_cons.
    pose proof (len_nonneg tl) as P.
    destruct (Z.eqb_spec i 10) as [E|E]; [left; cbn; lia|].
    destruct (Z.ltb_spec (Z_of_byte v) 128) as [S|S].
    + destruct ((i =? 10 - 1) && (1 <? Z_of_byte v)); cbn [snd]; lia.
    + specialize (IH (i + 1)
        (Z.lor x (to_uint64 (Z.shiftl (Z.land (Z_of_byte v) 127) s)))
        (s + 7)).
      cbv zeta in IH. lia.
Qed.

Lemma Uvarint_count (buf : list byte) :
  snd (binary.Uvarint buf) <= 0
  \/ (0 < snd (binary.Uvarint buf) <= len buf /\ snd (binary.Uvarint buf) <= 10).
Proof.
  pose proof (Uvarint_loop_count buf 0 0 0) as H. cbv zeta in H.
  unfold binary.Uvarint. lia.
Qed.



Lemma uvarint_spec (c : cursor) :
  wf c ->
  uvarint c = let '(v, n) := binary.Uvarint (rest c) in
              if n <=? 0 then Err c else Ok v (moved c n).
Proof.
  intros W. unfold uvarint, bind, slicing.
  rewrite slice_from_rest by auto.
  pose proof (Uvarint_count (rest c)) as C.
  pose proof (len_rest c W) as L.
  destruct (binary.Uvarint (rest c)) as [v n]. cbn [snd] in C.
  destruct (Z.leb_spec n 0); [reflexivity|].
  rewrite advance_exact by (auto; unfold max_len; lia).
  reflexivity.
Qed.

(** ** Where a successful read leaves the cursor

    Five of the six readers, whenever they return a value from a
    well-formed cursor, have moved the position forward by the bytes they
    read and not past the end of the buffer. *)

Lemma len_firstn (n : Z) (s : list byte) :
  0 <= n <= len s -> len (firstn (Z.to_nat n) s) = n.
Proof. intros H. unfold len in *. rewrite length_firstn. lia. Qed.

Lemma i16_advance (c c' : cursor) (v : Z) :
  wf c -> i16 c = Ok v c' -> c' = moved c 2 /\ off c + 2 <= len (b c).
Proof.
  intros W H. rewrite i16_spec in H by auto.
  pose proof (len_rest c W) as L.
  destruct (rest c) as [|x [|y tl]]; try discriminate.
  rewrite !len_cons in L. pose proof (len_nonneg tl).
  inversion H. split; [reflexivity | lia].
Qed.

Lemma i32_advance (c c' : cursor) (v : Z) :
  wf c -> i32 c = Ok v c' -> c' = moved c 4 /\ off c + 4 <= len (b c).
Proof.
  intros W H. rewrite i32_spec in H by auto.
  pose proof (len_rest c W) as L.
  destruct (rest c) as [|x [|y [|z [|w tl]]]]; try discriminate.
  rewrite !len_cons in L. pose proof (len_nonneg tl).
  inversion H. split; [reflexivity | lia].
Qed.

Lemma str16_advance (c c' : cursor) (s : list byte) :
  wf c -> str16 c = Ok s c' ->
  c' = moved c (2 + len s) /\ off c + 2 + len s <= len (b c).
Proof.
  intros W H. rewrite str16_spec in H by auto.
  pose proof (len_rest c W) as L.
  destruct (rest c) as [|x [|y tl]]; try discriminate.
  rewrite !len_cons in L. pose proof (len_nonneg tl) as Q.
  cbv zeta in H.
  destruct (Z.ltb_spec (to_int16 (Z_of_byte x * 256 + Z_of_byte y)) 0).
  - inversion H. rewrite len_nil. split; [reflexivity | lia].
  - destruct (Z.ltb_spec (len tl)
                (to_int16 (Z_of_byte x * 256 + Z_of_byte y)));
      [discriminate|].
    inversion H. rewrite len_firstn by lia. split; [reflexivity | lia].
Qed.

Lemma str16_no_panic (c : cursor) : wf c -> str16 c <> Panic.
Proof.
  intros W. rewrite str16_spec by auto.
  destruct (rest c) as [|x [|y tl]]; try discriminate.
  cbv zeta. repeat destruct (_ <? _); discriminate.
Qed.

Lemma uvarint_advance (c c' : cursor) (v : Z) :
  wf c -> uvarint c = Ok v c' ->
  let n := snd (binary.Uvarint (rest c)) in
  c' = moved c n /\ 0 < n <= 10 /\ off c + n <= len (b c).
Proof.
  intros W H. rewrite uvarint_spec in H by auto.
  pose proof (Uvarint_count (rest c)) as C.
  pose proof (len_rest c W) as L.
  destruct (binary.Uvarint (rest c)) as [v' n]. cbn [snd] in *.
  destruct (Z.leb_spec n 0); [discriminate|].
  inversion H. repeat split; lia.
Qed.

Lemma slice_Some (s t : list byte) (lo hi : Z) :
  slice s lo hi = Some t ->
  0 <= lo <= hi /\ hi <= len s /\ len t = hi - lo.
Proof.
  unfold slice.
  destruct (Z.leb_spec 0 lo); [|discriminate].
  destruct (Z.leb_spec lo hi); [|discriminate].
  destruct (Z.leb_spec hi (len s)); [|discriminate].
  cbn [andb]. intros E. inversion E.
  unfold len in *. rewrite length_firstn, length_skipn. lia.
Qed.

Lemma compactNullableString_advance (c c' : cursor) (s : list byte) :
  wf c -> compactNullableString c = Ok s c' ->
  let n := snd (binary.Uvarint (rest c)) in
  c' = moved c (n + len s) /\ 0 < n <= 10 /\ off c + n + len s <= len (b c).
Proof.
  intros W H. unfold compactNullableString in H. unfold bind at 1 in H.
  destruct (uvarint c) as [n1 c1| |] eqn:U; try discriminate.
  destruct (uvarint_advance c c1 n1 W U) as (E1 & Hn & Hle).
  cbv zeta. set (n := snd (binary.Uvarint (rest c))) in *.
  destruct (Z.eqb_spec n1 0).
  - inversion H. subst. rewrite len_nil, Z.add_0_r.
    repeat split; lia.
  - set (k := to_int (to_uint64 (n1 - 1))) in *.
    unfold bind, need, slicing, advance, ret in H.
    destruct (len (b c1) <? to_int (off c1 + k)); [discriminate|].
    destruct (slice (b c1) (off c1) (to_int (off c1 + k))) as [t|] eqn:S;
      [|discriminate].
    apply slice_Some in S. destruct S as (S1 & S2 & S3).
    inversion H. subst t c1. cbn [b off moved] in *.
    unfold moved. repeat split; try lia.
    f_equal. lia.
Qed.

(** ** Compact lengths that fit

    With a decoded length below [max_len] the two compact readers do what
    their comments say: they return the announced bytes, or skip them, or
    report an error when the buffer is too short. *)

Lemma Uvarint_loop_nonneg (buf : list byte) :
  forall i x s, 0 <= x -> 0 <= fst (binary.Uvarint_loop buf i x s).
Proof.
  assert (U : forall z, 0 <= to_uint64 z).
  { intros z. unfold to_uint64, wrap_unsigned.
    apply Z.mod_pos_bound. lia. }
  induction buf as [|v tl IH]; intros i x s Hx; cbn [binary.Uvarint_loop].
  - cbn. lia.
  - destruct (i =? binary.MaxVarintLen64); [cbn; lia|].
    destruct (Z_of_byte v <? 128).
    + destruct ((i =? binary.MaxVarintLen64 - 1) && (1 <? Z_of_byte v));
        cbn [fst]; [lia|].
      apply Z.lor_nonneg. auto.
    + apply IH. apply Z.lor_nonneg. auto.
Qed.

Lemma uvarint_nonneg (c c' : cursor) (v : Z) :
  wf c -> uvarint c = Ok v c' -> 0 <= v.
Proof.
  intros W H. rewrite uvarint_spec in H by auto.
  pose proof (Uvarint_loop_nonneg (rest c) 0 0 0 (Z.le_refl 0)) as N.
  fold (binary.Uvarint (rest c)) in N.
  destruct (binary.Uvarint (rest c)) as [v' n]. cbn [fst] in N.
  destruct (n <=? 0); inversion H. subst. exact N.
Qed.

Lemma wf_after_uvarint (c c' : cursor) (v : Z) :
  wf c -> uvarint c = Ok v c' -> wf c'.
Proof.
  intros W H. destruct (uvarint_advance c c' v W H) as (-> & Hn & Hle).
  apply wf_moved; auto; lia.
Qed.

Lemma to_int_uint64_small (z : Z) :
  0 <= z < max_len -> to_int (to_uint64 z) = z.
Proof.
  intros H. unfold max_len in H. unfold to_uint64, wrap_unsigned.
  rewrite Z.mod_small by lia. apply to_int_small. lia.
Qed.

Lemma compactNullableString_in_range (c c1 : cursor) (n1 : Z) :
  wf c -> uvarint c = Ok n1 c1 -> n1 <= max_len ->
  compactNullableString c
  = if n1 =? 0 then Ok [] c1
    else if len (rest c1) <? n1 - 1 then Err c1
    else Ok (firstn (Z.to_nat (n1 - 1)) (rest c1)) (moved c1 (n1 - 1)).
Proof.
  intros W U Hn. unfold compactNullableString. unfold bind at 1. rewrite U.
  pose proof (uvarint_nonneg c c1 n1 W U) as N0.
  pose proof (wf_after_uvarint c c1 n1 W U) as W1.
  pose proof (len_rest c1 W1) as L.
  destruct (Z.eqb_spec n1 0); [reflexivity|].
  rewrite to_int_uint64_small by lia.
  unfold bind. rewrite need_exact by (auto; lia).
  destruct (Z.ltb_spec (len (b c1)) (off c1 + (n1 - 1)));
    destruct (Z.ltb_spec (len (rest c1)) (n1 - 1)); try lia; [reflexivity|].
  unfold slicing.
  destruct W1 as [[A0 A1] A2]. unfold max_len in *.
  rewrite to_int_small by lia.
  rewrite slice_rest by (unfold wf, max_len; lia).
  rewrite advance_exact by (unfold wf, max_len; lia).
  reflexivity.
Qed.

Lemma skipTagged_entry_in_range (c c1 c2 : cursor) (tag sz : Z) :
  wf c -> uvarint c = Ok tag c1 -> uvarint c1 = Ok sz c2 -> sz < max_len ->
  skipTagged_entry c
  = if len (rest c2) <? sz then Err c2 else Ok tt (moved c2 sz).
Proof.
  intros W U1 U2 Hs. unfold skipTagged_entry.
  unfold bind at 1. rewrite U1. unfold bind at 1.
  pose proof (wf_after_uvarint c c1 tag W U1) as W1. rewrite U2.
  pose proof (uvarint_nonneg c1 c2 sz W1 U2) as N0.
  pose proof (wf_after_uvarint c1 c2 sz W1 U2) as W2.
  pose proof (len_rest c2 W2) as L.
  assert (E : to_int sz = sz) by (apply to_int_small; unfold max_len in Hs; lia).
  rewrite E. unfold bind. rewrite need_exact by (auto; lia).
  destruct (Z.ltb_spec (len (b c2)) (off c2 + sz));
    destruct (Z.ltb_spec (len (rest c2)) sz); try lia; [reflexivity|].
  apply advance_exact; auto; lia.
Qed.

(** ** The header decoder *)

Lemma skipn_cons_nth {A} (d : A) :
  forall (n : nat) (p : list A),
    (n < length p)%nat -> skipn n p = nth n p d :: skipn (S n) p.
Proof.
  induction n as [|n IH]; intros [|a p] H; cbn [length] in H; try lia.
  - reflexivity.
  - cbn [nth]. change (skipn (S n) (a :: p)) with (skipn n p).
    change (skipn (S (S n)) (a :: p)) with (skipn (S n) p).
    apply IH. lia.
Qed.

Lemma wf_at (p : list byte) (o : Z) :
  0 <= o <= len p -> len p <= max_len -> wf (mkCursor p o).
Proof. unfold wf. cbn [b off]. lia. Qed.

Lemma i16_at (p : list byte) (o : Z) :
  0 <= o -> o + 2 <= len p <= max_len ->
  i16 (mkCursor p o) = Ok (int16_at p (Z.to_nat o)) (mkCursor p (o + 2)).
Proof.
  intros Ho Hp. rewrite i16_spec by (apply wf_at; lia).
  unfold rest. cbn [b off]. unfold len in Hp.
  rewrite (skipn_cons_nth x00 (Z.to_nat o)) by lia.
  rewrite (skipn_cons_nth x00 (S (Z.to_nat o))) by lia.
  unfold int16_at, byte_at. rewrite Nat.add_1_r. reflexivity.
Qed.

Lemma i32_at (p : list byte) (o : Z) :
  0 <= o -> o + 4 <= len p <= max_len ->
  i32 (mkCursor p o) = Ok (int32_at p (Z.to_nat o)) (mkCursor p (o + 4)).
Proof.
  intros Ho Hp. rewrite i32_spec by (apply wf_at; lia).
  unfold rest. cbn [b off]. unfold len in Hp.
  rewrite (skipn_cons_nth x00 (Z.to_nat o)) by lia.
  rewrite (skipn_cons_nth x00 (S (Z.to_nat o))) by lia.
  rewrite (skipn_cons_nth x00 (S (S (Z.to_nat o)))) by lia.
  rewrite (skipn_cons_nth x00 (S (S (S (Z.to_nat o))))) by lia.
  unfold int32_at, byte_at.
  rewrite Nat.add_1_r.
  replace (Z.to_nat o + 2)%nat with (S (S (Z.to_nat o))) by lia.
  replace (Z.to_nat o + 3)%nat with (S (S (S (Z.to_nat o)))) by lia.
  reflexivity.
Qed.

Lemma i16_short (p : list byte) (o : Z) :
  0 <= o <= len p -> len p < o + 2 -> len p <= max_len ->
  i16 (mkCursor p o) = Err (mkCursor p o).
Proof.
  intros Ho Hs Hp. assert (W : wf (mkCursor p o)) by (apply wf_at; lia).
  rewrite i16_spec by auto. pose proof (len_rest _ W) as L. cbn [b off] in L.
  destruct (rest _) as [|x [|y tl]]; try reflexivity.
  rewrite !len_cons in L. pose proof (len_nonneg tl). lia.
Qed.

Lemma i32_short (p : list byte) (o : Z) :
  0 <= o <= len p -> len p < o + 4 -> len p <= max_len ->
  i32 (mkCursor p o) = Err (mkCursor p o).
Proof.
  intros Ho Hs Hp. assert (W : wf (mkCursor p o)) by (apply wf_at; lia).
  rewrite i32_spec by auto. pose proof (len_rest _ W) as L. cbn [b off] in L.
  destruct (rest _) as [|x [|y [|z [|w tl]]]]; try reflexivity.
  rewrite !len_cons in L. pose proof (len_nonneg tl). lia.
Qed.

(** After the three fixed fields the decoder stands at offset 8, tries the
    legacy string there and, on an error only, runs the flexible strategy
    from offset 8 again. *)
Lemma parseHeader_prefix (p : list byte) :
  8 <= len p <= max_len ->
  parseHeader (mkCursor p 0)
  = match str16 (mkCursor p 8) with
    | Ok s c' => Ok (mkHeader (int16_at p 0) (int16_at p 2) (int32_at p 4) s) c'
    | Err _ =>
        flexibleHeader (int16_at p 0) (int16_at p 2) (int32_at p 4)
          (mkCursor p 8)
    | Panic => Panic
    end.
Proof.
  intros Hp. unfold parseHeader.
  unfold bind at 1. rewrite i16_at by lia.
  unfold bind at 1. rewrite i16_at by lia.
  unfold bind at 1. rewrite i32_at by lia.
  unfold bind at 1. unfold get_off. cbn [off Z.add Pos.add Pos.succ].
  unfold if_ok.
  pose proof (keeps_str16 (mkCursor p 8)) as K.
  destruct (str16 (mkCursor p 8)) as [s c'| c' |]; try reflexivity.
  cbn [b] in K. unfold bind at 1. unfold set_off. rewrite K.
  reflexivity.
Qed.

Lemma parseHeader_short (p : list byte) :
  len p < 8 -> exists c', parseHeader (mkCursor p 0) = Err c'.
Proof.
  intros Hp. pose proof (len_nonneg p) as P.
  assert (M : len p <= max_len) by (unfold max_len; lia).
  unfold parseHeader.
  destruct (Z.lt_ge_cases (len p) 2) as [S2|S2].
  { unfold bind at 1. rewrite i16_short by lia. eauto. }
  unfold bind at 1. rewrite i16_at by lia.
  destruct (Z.lt_ge_cases (len p) 4) as [S4|S4].
  { unfold bind at 1. rewrite i16_short by lia. eauto. }
  unfold bind at 1. rewrite i16_at by lia.
  unfold bind at 1. rewrite i32_short by lia. eauto.
Qed.

Lemma str16_at (p : list byte) (o : Z) :
  0 <= o -> o + 2 <= len p <= max_len ->
  str16 (mkCursor p o)
  = let l := int16_at p (Z.to_nat o) in
    if l <? 0 then Ok [] (mkCursor p (o + 2))
    else if len p - (o + 2) <? l then Err (mkCursor p (o + 2))
    else Ok (firstn (Z.to_nat l) (skipn (Z.to_nat (o + 2)) p))
            (mkCursor p (o + 2 + l)).
Proof.
  intros Ho Hp. assert (W : wf (mkCursor p o)) by (apply wf_at; lia).
  rewrite str16_spec by auto.
  pose proof (len_rest _ W) as L. revert L.
  unfold rest. cbn [b off]. unfold len in Hp.
  rewrite (skipn_cons_nth x00 (Z.to_nat o)) by lia.
  rewrite (skipn_cons_nth x00 (S (Z.to_nat o))) by lia.
  rewrite !len_cons. intros L.
  unfold int16_at, byte_at. rewrite Nat.add_1_r. cbv zeta.
  replace (len p - (o + 2)) with (len (skipn (S (S (Z.to_nat o))) p)) by lia.
  replace (Z.to_nat (o + 2)) with (S (S (Z.to_nat o))) by lia.
  unfold moved. cbn [b off]. rewrite Z.add_assoc. reflexivity.
Qed.

Lemma str16_short (p : list byte) (o : Z) :
  0 <= o <= len p -> len p < o + 2 -> len p <= max_len ->
  str16 (mkCursor p o) = Err (mkCursor p o).
Proof.
  intros Ho Hs Hp. unfold str16, bind. rewrite i16_short by lia. reflexivity.
Qed.



(** C5: on a payload of at least eight bytes the three fixed fields are
    read first, which leaves the cursor at offset 8, the saved position.
    If the legacy string read succeeds there, the header is returned at
    once with the cursor where that read left it, just past the string, so
    no tagged-field block is read; a negative length is such a success, with
    a null client id and the cursor at offset 10.  Only if the legacy read
    returns an error, wherever it left the cursor, the result is that of the
    compact string and tagged-field readers run from offset 8 over the same
    bytes.  The legacy read never panics. *)
Theorem parseHeader_two_strategies (p : list byte) :
  8 <= len p <= max_len ->
  let k := int16_at p 0 in
  let v := int16_at p 2 in
  let cid := int32_at p 4 in
  (i16 (mkCursor p 0) = Ok k (mkCursor p 2)
   /\ i16 (mkCursor p 2) = Ok v (mkCursor p 4)
   /\ i32 (mkCursor p 4) = Ok cid (mkCursor p 8))
  /\ (forall s c', str16 (mkCursor p 8) = Ok s c' ->
        parseHeader (mkCursor p 0) = Ok (mkHeader k v cid s) c'
        /\ c' = mkCursor p (8 + 2 + len s))
  /\ (10 <= len p -> int16_at p 8 < 0 ->
        parseHeader (mkCursor p 0) = Ok (mkHeader k v cid []) (mkCursor p 10))
  /\ (forall ce, str16 (mkCursor p 8) = Err ce ->
        (ce = mkCursor p 8 \/ ce = mkCursor p 10)
        /\ parseHeader (mkCursor p 0)
           = (s <- compactNullableString ;;
              skipTagged ;;;
              ret (mkHeader k v cid s)) (mkCursor p 8))
  /\ str16 (mkCursor p 8) <> Panic.
Proof.
  intros Hp k v cid.
  assert (W8 : wf (mkCursor p 8)) by (apply wf_at; lia).
  pose proof (parseHeader_prefix p Hp) as P. fold k v cid in P.
  repeat split.
  - apply (i16_at p 0); lia.
  - apply (i16_at p 2); lia.
  - apply (i32_at p 4); lia.
  - rewrite P, H. reflexivity.
  - destruct (str16_advance _ _ _ W8 H) as [E _]. rewrite E.
    unfold moved. cbn [b off]. f_equal. lia.
  - intros H10 Hneg. rewrite P.
    rewrite (str16_at p 8) by lia. cbv zeta.
    change (Z.to_nat 8) with 8%nat.
    destruct (Z.ltb_spec (int16_at p 8) 0); [reflexivity | lia].
  - destruct (Z.lt_ge_cases (len p) 10) as [S|S].
    + rewrite str16_short in H by lia. inversion H. auto.
    + rewrite (str16_at p 8) in H by lia. cbv zeta in H.
      repeat destruct (_ <? _); inversion H. auto.
  - rewrite P, H. reflexivity.
  - apply str16_no_panic, W8.
Qed.

(** ** The legacy strategy hides the flexible one *)




(** ** The connection loop *)

Lemma ReadFull_app (n : Z) (s t : list byte) :
  len s = n -> ReadFull n (s ++ t) = (Some s, t).
Proof.
  intros H. unfold ReadFull. rewrite len_app.
  pose proof (len_nonneg t).
  destruct (Z.leb_spec n (len s + len t)); [|lia].
  unfold len in H. subst n. rewrite Nat2Z.id.
  rewrite firstn_app, skipn_app, firstn_all, skipn_all, Nat.sub_diag.
  cbn [firstn skipn app]. rewrite app_nil_r. reflexivity.
Qed.

Lemma Uint32_lenBuf (lenBuf : list byte) :
  len lenBuf = 4 ->
  exists u, binary.Uint32 lenBuf = Some u /\ to_int32 u = frameSize_of lenBuf.
Proof.
  intros H.
  destruct lenBuf as [|l0 [|l1 [|l2 [|l3 [|l4 tl]]]]];
    rewrite ?len_cons, ?len_nil in H; try lia.
  - rewrite Uint32_value. eexists. split; [reflexivity|]. reflexivity.
  - pose proof (len_nonneg tl). lia.
Qed.

(** One pass over a stream that begins with a length outside the accepted
    range. *)
Lemma serveFrame_bad_length (st : conn) (lenBuf rest : list byte) :
  len lenBuf = 4 ->
  inp st = lenBuf ++ rest ->
  frameSize_of lenBuf < 0 \/ maxFrameSize < frameSize_of lenBuf ->
  serveFrame st
  = (mkConn rest (trace st ++ [EvReadLen]),
     Some (if frameSize_of lenBuf <? 0 then NegativeFrameSize
           else FrameTooLarge)).
Proof.
  intros H4 Hin Hbad. unfold serveFrame.
  rewrite Hin, (ReadFull_app 4 lenBuf rest H4).
  destruct (Uint32_lenBuf lenBuf H4) as (u & -> & ->).
  destruct (Z.ltb_spec (frameSize_of lenBuf) 0); [reflexivity|].
  destruct (Z.ltb_spec maxFrameSize (frameSize_of lenBuf)); [reflexivity|lia].
Qed.

(** One pass over a stream that begins with a whole frame of accepted
    size. *)
Lemma serveFrame_frame (st : conn) (lenBuf payload rest : list byte) :
  len lenBuf = 4 ->
  frameSize_of lenBuf = len payload ->
  len payload <= maxFrameSize ->
  inp st = lenBuf ++ payload ++ rest ->
  serveFrame st
  = let n := len payload in
    let st1 := log st EvReadLen (payload ++ rest) in
    let st2 := log st1 (EvAllocPayload n) (payload ++ rest) in
    let st3 := log st2 (EvReadPayload n) rest in
    match parseHeader (mkCursor payload 0) with
    | Panic => (st3, Some Crashed)
    | Err _ => (st3, Some MalformedHeader)
    | Ok h _ =>
        (log st3
           (EvWrite (response_frame (corrID h)
                       (decideErrCode (apiKey h) (apiVer h)))) rest,
         None)
    end.
Proof.
  intros H4 Hn Hmax Hin. unfold serveFrame.
  rewrite Hin, (ReadFull_app 4 lenBuf _ H4).
  destruct (Uint32_lenBuf lenBuf H4) as (u & -> & ->).
  rewrite Hn. pose proof (len_nonneg payload).
  destruct (Z.ltb_spec (len payload) 0); [lia|].
  destruct (Z.ltb_spec maxFrameSize (len payload)); [lia|].
  cbn [inp log]. rewrite (ReadFull_app (len payload) payload rest eq_refl).
  cbv zeta.
  destruct (parseHeader (mkCursor payload 0)) as [h c'|c'|]; try reflexivity.
  rewrite buildApiVersionsResponse_frame. reflexivity.
Qed.

Lemma written_app (tr tr' : list event) :
  written (tr ++ tr') = written tr ++ written tr'.
Proof.
  induction tr as [|e tr IH]; [reflexivity|].
  destruct e; cbn [app written]; rewrite IH; auto using app_assoc.
Qed.

Lemma ReadFull_Some (n : Z) (s x r : list byte) :
  ReadFull n s = (Some x, r) -> r = skipn (Z.to_nat n) s /\ n <= len s.
Proof.
  unfold ReadFull. destruct (Z.leb_spec n (len s)); intros E; inversion E.
  auto.
Qed.

(** A pass that goes round again has taken the four length bytes, at
    least, off the stream. *)
Lemma serveFrame_progress (st st' : conn) :
  serveFrame st = (st', None) ->
  (length (inp st') + 4 <= length (inp st))%nat.
Proof.
  intros H. unfold serveFrame in H.
  destruct (ReadFull 4 (inp st)) as [[lenBuf|] r1] eqn:R1; [|discriminate].
  destruct (binary.Uint32 lenBuf) as [u|]; [|discriminate].
  destruct (to_int32 u <? 0); [discriminate|].
  destruct (maxFrameSize <? to_int32 u); [discriminate|].
  cbn [inp log] in H.
  destruct (ReadFull (to_int32 u) r1) as [[payload|] r2] eqn:R2;
    [|discriminate].
  destruct (parseHeader (mkCursor payload 0)) as [h c'|c'|]; try discriminate.
  destruct (buildApiVersionsResponse _ _); [|discriminate].
  inversion H. cbn [inp log].
  apply ReadFull_Some in R1. apply ReadFull_Some in R2.
  destruct R1 as [-> L1]. destruct R2 as [-> _].
  unfold len in L1. rewrite !length_skipn. lia.
Qed.

Lemma handleConn_loop_returns (fuel : nat) :
  forall st, (length (inp st) < fuel)%nat ->
             exists r, handleConn_loop fuel st = Some r.
Proof.
  induction fuel as [|fuel IH]; intros st H; [lia|].
  cbn [handleConn_loop].
  destruct (serveFrame st) as [st' [o|]] eqn:E; [eauto|].
  apply IH. apply serveFrame_progress in E. lia.
Qed.

(** [handleConn] returns on every finite stream: the fuel never runs
    out. *)
Lemma handleConn_returns (stream : list byte) :
  exists st o, handleConn stream = Some (st, o).
Proof.
  destruct (handleConn_loop_returns (S (length stream)) (mkConn stream []))
    as [[st o] H]; [cbn [inp]; lia|].
  exists st, o. exact H.
Qed.

(** C7: at any point of a connection, if the next four bytes of the stream
    announce a negative length or one above 10 MiB, the handler returns after
    reading those four bytes only: the rest of the stream is untouched, no
    payload buffer is allocated, no payload read is issued and nothing is
    written. *)
Theorem oversized_frame_rejected
    (fuel : nat) (st : conn) (lenBuf rest : list byte) :
  len lenBuf = 4 ->
  inp st = lenBuf ++ rest ->
  frameSize_of lenBuf < 0 \/ 10 * 1024 * 1024 < frameSize_of lenBuf ->
  exists o,
    handleConn_loop (S fuel) st
    = Some (mkConn rest (trace st ++ [EvReadLen]), o)
    /\ (o = NegativeFrameSize \/ o = FrameTooLarge)
    /\ written (trace st ++ [EvReadLen]) = written (trace st).
Proof.
  intros H4 Hin Hbad.
  exists (if frameSize_of lenBuf <? 0 then NegativeFrameSize else FrameTooLarge).
  cbn [handleConn_loop].
  rewrite (serveFrame_bad_length st lenBuf rest H4 Hin Hbad).
  repeat split.
  - destruct (_ <? _); auto.
  - rewrite written_app. cbn [written]. apply app_nil_r.
Qed.

(** C6: at any point of a connection, take a whole frame of accepted size.
    If its payload has fewer than eight bytes, or the legacy read at offset 8
    returns an error and so does the flexible strategy (the compact string
    followed by the tagged fields) from the same offset, then the header
    decode returns an error and the handler returns, having read the frame
    and written nothing. *)
Theorem malformed_header_closes
    (fuel : nat) (st : conn) (lenBuf payload rest : list byte) :
  len lenBuf = 4 ->
  frameSize_of lenBuf = len payload ->
  len payload <= maxFrameSize ->
  inp st = lenBuf ++ payload ++ rest ->
  len payload < 8
  \/ ((exists ce, str16 (mkCursor payload 8) = Err ce)
      /\ (exists cf, (s <- compactNullableString ;; skipTagged ;;; ret s)
                       (mkCursor payload 8) = Err cf)) ->
  (exists c', parseHeader (mkCursor payload 0) = Err c')
  /\ exists st',
       handleConn_loop (S fuel) st = Some (st', MalformedHeader)
       /\ inp st' = rest
       /\ trace st'
          = trace st ++ [EvReadLen; EvAllocPayload (len payload);
                         EvReadPayload (len payload)]
       /\ written (trace st') = written (trace st).
Proof.
  intros H4 Hn Hmax Hin Hbad.
  assert (E : exists c', parseHeader (mkCursor payload 0) = Err c').
  { destruct Hbad as [Hs|[[ce Hl] [cf Hf]]]; [apply parseHeader_short, Hs|].
    destruct (Z.lt_ge_cases (len payload) 8) as [Hs|Hs];
      [apply parseHeader_short, Hs|].
    rewrite parseHeader_prefix, Hl
      by (unfold maxFrameSize, max_len in *; lia).
    unfold flexibleHeader. unfold bind in Hf |- *.
    destruct (compactNullableString _) as [s c1|c1|]; try discriminate;
      [|eauto].
    destruct (skipTagged c1) as [u c2|c2|]; try discriminate. eauto. }
  split; [exact E|]. destruct E as [c' E].
  cbn [handleConn_loop].
  rewrite (serveFrame_frame st lenBuf payload rest H4 Hn Hmax Hin).
  cbv zeta. rewrite E. eexists. split; [reflexivity|].
  cbn [inp trace log]. repeat split.
  - rewrite <- !app_assoc. reflexivity.
  - rewrite !written_app. cbn [written]. rewrite !app_nil_r. reflexivity.
Qed.

(** ** The worked example *)

(** C1, as stated: the handler does not write the 24 bytes printed in the
    specification. *)
Lemma example_response_not_as_printed :
  responses Examples.stream <> Some Examples.printed_response.
Proof. vm_compute. discriminate. Qed.

(** C1, amended: for the single request frame of the example the handler
    reads the frame, writes exactly 23 bytes, the printed ones without the
    last zero byte, whose length field 19 counts the bytes after it, and
    returns at the end of the stream. *)
Theorem example_response :
  handleConn Examples.stream
  = Some (mkConn []
            [EvReadLen; EvAllocPayload 14; EvReadPayload 14;
             EvWrite Examples.written_response; EvReadLen],
          ConnEOF)
  /\ responses Examples.stream = Some Examples.written_response
  /\ Examples.written_response = removelast Examples.printed_response
  /\ len Examples.written_response = 4 + 19.
Proof. vm_compute. repeat split. Qed.

(** ** Lengths that do not fit an [int] *)

(** C8 fails on [skipTagged]: a tagged field whose declared size is 2^63
    converts to the [int] -2^63, passes [need], and the call returns without
    error with the position at 12 - 2^63, below zero.  The same happens
    inside [parseHeader], which reports a well-formed header. *)
Theorem skipTagged_negative_position :
  wf (mkCursor Examples.tagged_one 0)
  /\ skipTagged (mkCursor Examples.tagged_one 0)
     = Ok tt (mkCursor Examples.tagged_one (12 - 2 ^ 63))
  /\ 12 - 2 ^ 63 < 0
  /\ parseHeader (mkCursor Examples.payload_backwards 0)
     = Ok (mkHeader 18 4 7 [])
          (mkCursor Examples.payload_backwards (21 - 2 ^ 63)).
Proof. vm_compute. repeat split; discriminate. Qed.

(** C9 fails on both readers: a compact length of 2^64-1 makes
    [compactNullableString] slice the buffer as [10:8], and a second entry
    after a field of declared size 2^63 makes [skipTagged] slice it from a
    negative position; both panic.  The second input reaches the handler
    over the network and ends the process. *)
Theorem compact_readers_panic :
  compactNullableString (mkCursor Examples.varint_max 0) = Panic
  /\ skipTagged (mkCursor Examples.tagged_two 0) = Panic
  /\ parseHeader (mkCursor Examples.payload_crash 0) = Panic
  /\ handleConn Examples.stream_crash
     = Some (mkConn [] [EvReadLen; EvAllocPayload 21; EvReadPayload 21],
             Crashed).
Proof. vm_compute. repeat split. Qed.

(** ** Instances *)

Lemma response_round_trip_example :
  is_int32 7 /\ is_int16 35
  /\ exists resp,
       buildApiVersionsResponse 7 35 = Some resp
       /\ readResponse (mkCursor resp 0)
          = Ok (mkResponse (len resp - 4) 7 35 1 (18, 0, 4) 0)
               (mkCursor resp (len resp)).
Proof.
  assert (H32 : is_int32 7) by (unfold is_int32; lia).
  assert (H16 : is_int16 35) by (unfold is_int16; lia).
  split; [exact H32|]. split; [exact H16|].
  exact (response_round_trip 7 35 H32 H16).
Defined.

Lemma parseHeader_example :
  8 <= len Examples.payload <= max_len
  /\ parseHeader (mkCursor Examples.payload 0)
     = Ok (mkHeader 18 4 7 [x74; x65; x73; x74]) (mkCursor Examples.payload 14).
Proof.
  assert (H : 8 <= len Examples.payload <= max_len)
    by (vm_compute; split; discriminate).
  split; [exact H|].
  destruct (parseHeader_two_strategies Examples.payload H) as (_ & L & _).
  destruct (L [x74; x65; x73; x74] (mkCursor Examples.payload 14) eq_refl)
    as [P _].
  exact P.
Defined.


Lemma malformed_header_example :
  len [x00; x00; x00; x09] = 4
  /\ frameSize_of [x00; x00; x00; x09] = len Examples.payload_unreadable
  /\ len Examples.payload_unreadable <= maxFrameSize
  /\ str16 (mkCursor Examples.payload_unreadable 8)
     = Err (mkCursor Examples.payload_unreadable 8)
  /\ (s <- compactNullableString ;; skipTagged ;;; ret s)
       (mkCursor Examples.payload_unreadable 8)
     = Err (mkCursor Examples.payload_unreadable 9)
  /\ (exists c', parseHeader (mkCursor Examples.payload_unreadable 0) = Err c')
  /\ exists st',
       handleConn_loop 1 (mkConn Examples.stream_unreadable [])
       = Some (st', MalformedHeader)
       /\ inp st' = []
       /\ trace st' = [EvReadLen; EvAllocPayload 9; EvReadPayload 9]
       /\ written (trace st') = [].
Proof.
  assert (H4 : len [x00; x00; x00; x09] = 4) by reflexivity.
  assert (Hn : frameSize_of [x00; x00; x00; x09]
               = len Examples.payload_unreadable) by reflexivity.
  assert (Hm : len Examples.payload_unreadable <= maxFrameSize)
    by (vm_compute; discriminate).
  assert (Hl : str16 (mkCursor Examples.payload_unreadable 8)
               = Err (mkCursor Examples.payload_unreadable 8))
    by reflexivity.
  assert (Hf : (s <- compactNullableString ;; skipTagged ;;; ret s)
                 (mkCursor Examples.payload_unreadable 8)
               = Err (mkCursor Examples.payload_unreadable 9))
    by reflexivity.
  repeat (split; [assumption|]).
  exact (malformed_header_closes 0
           (mkConn Examples.stream_unreadable [])
           [x00; x00; x00; x09] Examples.payload_unreadable [] H4 Hn Hm eq_refl
           (or_intror (conj (ex_intro _ _ Hl) (ex_intro _ _ Hf)))).
Defined.

Lemma oversized_frame_example :
  len [xff; xff; xff; xff] = 4
  /\ frameSize_of [xff; xff; xff; xff] < 0
  /\ exists o,
       handleConn_loop 1 (mkConn Examples.stream_negative_length [])
       = Some (mkConn [x00; x12] [EvReadLen], o)
       /\ (o = NegativeFrameSize \/ o = FrameTooLarge)
       /\ written [EvReadLen] = [].
Proof.
  assert (H4 : len [xff; xff; xff; xff] = 4) by reflexivity.
  assert (Hn : frameSize_of [xff; xff; xff; xff] < 0) by reflexivity.
  repeat (split; [assumption|]).
  exact (oversized_frame_rejected 0
           (mkConn Examples.stream_negative_length [])
           [xff; xff; xff; xff] [x00; x12] H4 eq_refl (or_introl Hn)).
Defined.

(** * Further properties of the cursor *)

(** Five readers, on a value: the position has moved forward by exactly the
    bytes read, the cursor is still inside its buffer.  ([skipTagged] is
    the exception, see [skipTagged_negative_position].) *)
Theorem successful_reads_advance (c : cursor) :
  wf c ->
  (forall v c', i16 c = Ok v c' -> c' = moved c 2 /\ wf c')
  /\ (forall v c', i32 c = Ok v c' -> c' = moved c 4 /\ wf c')
  /\ (forall s c', str16 c = Ok s c' -> c' = moved c (2 + len s) /\ wf c')
  /\ (forall v c', uvarint c = Ok v c' ->
        0 < snd (binary.Uvarint (rest c)) <= 10
        /\ c' = moved c (snd (binary.Uvarint (rest c))) /\ wf c')
  /\ (forall s c', compactNullableString c = Ok s c' ->
        c' = moved c (snd (binary.Uvarint (rest c)) + len s) /\ wf c').
Proof.
  intros W. split; [|split; [|split; [|split]]].
  - intros v c' H. destruct (i16_advance c c' v W H) as [-> L].
    split; [reflexivity | apply wf_moved; auto; lia].
  - intros v c' H. destruct (i32_advance c c' v W H) as [-> L].
    split; [reflexivity | apply wf_moved; auto; lia].
  - intros s c' H. destruct (str16_advance c c' s W H) as [-> L].
    pose proof (len_nonneg s).
    split; [reflexivity | apply wf_moved; auto; lia].
  - intros v c' H. destruct (uvarint_advance c c' v W H) as (E & N & L).
    split; [exact N|]. split; [exact E|].
    apply (wf_after_uvarint c c' v W H).
  - intros s c' H.
    destruct (compactNullableString_advance c c' s W H) as (-> & N & L).
    pose proof (len_nonneg s).
    split; [reflexivity | apply wf_moved; auto; lia].
Qed.

(** The readers on an error: [i16], [i32] and [uvarint] leave the cursor
    where it was; [str16] may have consumed its two length bytes, and
    [compactNullableString] its varint, before finding the content
    missing. *)
Theorem failed_reads_position (c : cursor) :
  wf c ->
  (forall c', i16 c = Err c' -> c' = c)
  /\ (forall c', i32 c = Err c' -> c' = c)
  /\ (forall c', uvarint c = Err c' -> c' = c)
  /\ (forall c', str16 c = Err c' ->
        c' = c \/ (c' = moved c 2 /\ off c + 2 <= len (b c)))
  /\ (forall c', compactNullableString c = Err c' ->
        c' = c \/ c' = moved c (snd (binary.Uvarint (rest c)))).
Proof.
  intros W. pose proof (len_rest c W) as L.
  split; [|split; [|split; [|split]]]; intros c' H.
  - rewrite i16_spec in H by auto.
    destruct (rest c) as [|x [|y tl]]; inversion H; reflexivity.
  - rewrite i32_spec in H by auto.
    destruct (rest c) as [|x [|y [|z [|w tl]]]]; inversion H; reflexivity.
  - rewrite uvarint_spec in H by auto.
    destruct (binary.Uvarint (rest c)) as [v n].
    destruct (n <=? 0); inversion H; reflexivity.
  - rewrite str16_spec in H by auto.
    destruct (rest c) as [|x [|y tl]]; try (inversion H; auto; fail).
    rewrite !len_cons in L. pose proof (len_nonneg tl).
    cbv zeta in H. repeat destruct (_ <? _); inversion H.
    right. split; [reflexivity | lia].
  - unfold compactNullableString in H. unfold bind at 1 in H.
    destruct (uvarint c) as [n1 c1|c1|] eqn:U; try discriminate.
    + destruct (uvarint_advance c c1 n1 W U) as (E & _).
      destruct (n1 =? 0); [discriminate|].
      unfold bind, need, slicing, advance, ret in H.
      destruct (_ <? _); [inversion H; subst; auto|].
      destruct (slice _ _ _); discriminate.
    + left. rewrite uvarint_spec in U by auto.
      destruct (binary.Uvarint (rest c)) as [v n].
      destruct (n <=? 0); inversion U. inversion H. congruence.
Qed.

(** * Further properties of the connection loop *)

Lemma ReadFull_split (n : Z) (s x r : list byte) :
  0 <= n -> ReadFull n s = (Some x, r) -> s = x ++ r /\ len x = n.
Proof.
  intros Hn H. unfold ReadFull in H.
  destruct (Z.leb_spec n (len s)) as [L|L]; [|discriminate].
  injection H as <- <-. rewrite firstn_skipn. split; [reflexivity|].
  unfold len in *. rewrite length_firstn. lia.
Qed.

Lemma ReadFull_None (n : Z) (s r : list byte) :
  ReadFull n s = (None, r) -> r = [] /\ len s < n.
Proof.
  unfold ReadFull. destruct (Z.leb_spec n (len s)); intros E; inversion E.
  auto.
Qed.

Lemma serveFrame_pass (st : conn) :
  match serveFrame st with
  | (st', None) =>
      exists lenBuf payload cid e,
        inp st = lenBuf ++ payload ++ inp st'
        /\ len lenBuf = 4
        /\ trace st'
           = trace st ++ [EvReadLen; EvAllocPayload (len payload);
                          EvReadPayload (len payload);
                          EvWrite (response_frame cid e)]
        /\ written (trace st') = written (trace st) ++ response_frame cid e
  | (st', Some _) =>
      written (trace st') = written (trace st)
      /\ exists taken, inp st = taken ++ inp st'
  end.
Proof.
  unfold serveFrame.
  destruct (ReadFull 4 (inp st)) as [[lenBuf|] r1] eqn:R1.
  2: { cbn [log trace inp]. split.
       - rewrite written_app. apply app_nil_r.
       - apply ReadFull_None in R1. destruct R1 as [-> _].
         exists (inp st). symmetry. apply app_nil_r. }
  assert (W1 : written (trace st ++ [EvReadLen]) = written (trace st))
    by (rewrite written_app; apply app_nil_r).
  assert (S1 : inp st = lenBuf ++ r1 /\ len lenBuf = 4).
  { apply (ReadFull_split 4); [lia | exact R1]. }
  destruct S1 as [S1 L4].
  assert (T1 : exists taken, inp st = taken ++ r1) by eauto.
  destruct (binary.Uint32 lenBuf) as [u|]; [|split; assumption].
  destruct (Z.ltb_spec (to_int32 u) 0); [split; assumption|].
  destruct (maxFrameSize <? to_int32 u); [split; assumption|].
  cbn [inp log trace].
  assert (W3 : written (((trace st ++ [EvReadLen])
                         ++ [EvAllocPayload (to_int32 u)])
                        ++ [EvReadPayload (to_int32 u)])
               = written (trace st)).
  { rewrite !written_app. cbn [written]. rewrite !app_nil_r. reflexivity. }
  destruct (ReadFull (to_int32 u) r1) as [[payload|] r2] eqn:R2.
  2: { cbn [log trace inp]. split; [exact W3|].
       apply ReadFull_None in R2. destruct R2 as [-> _].
       exists (inp st). symmetry. apply app_nil_r. }
  assert (S2 : r1 = payload ++ r2 /\ len payload = to_int32 u).
  { apply (ReadFull_split (to_int32 u)); [lia | exact R2]. }
  destruct S2 as [S2 Ln].
  assert (T2 : exists taken, inp st = taken ++ r2).
  { exists (lenBuf ++ payload). rewrite S1, S2. apply app_assoc. }
  destruct (parseHeader (mkCursor payload 0)) as [h c'|c'|];
    [|split; assumption|split; assumption].
  rewrite buildApiVersionsResponse_frame. cbn [inp log trace].
  exists lenBuf, payload, (corrID h), (decideErrCode (apiKey h) (apiVer h)).
  rewrite Ln. repeat split.
  - rewrite S1, S2. reflexivity.
  - exact L4.
  - rewrite <- !app_assoc. reflexivity.
  - rewrite written_app, W3. cbn [written]. rewrite app_nil_r. reflexivity.
Qed.


Lemma handleConn_loop_output (fuel : nat) :
  forall st st' o,
    handleConn_loop fuel st = Some (st', o) ->
    exists frames,
      written (trace st') = written (trace st) ++ concat frames
      /\ Forall is_response frames.
Proof.
  induction fuel as [|fuel IH]; intros st st' o H; [discriminate|].
  cbn [handleConn_loop] in H. pose proof (serveFrame_pass st) as P.
  destruct (serveFrame st) as [st1 [o1|]].
  - inversion H. subst. destruct P as [P _]. exists [].
    cbn [concat]. rewrite app_nil_r. auto.
  - destruct P as (lenBuf & payload & cid & e & _ & _ & _ & W).
    destruct (IH st1 st' o H) as (frames & W' & F).
    exists (response_frame cid e :: frames). split.
    + rewrite W', W. cbn [concat]. rewrite app_assoc. reflexivity.
    + constructor; [exists cid, e; reflexivity | exact F].
Qed.

Lemma len_concat_responses (frames : list (list byte)) :
  Forall is_response frames ->
  len (concat frames) = 23 * Z.of_nat (length frames).
Proof.
  induction 1 as [|f frames [cid [e ->]] _ IH].
  - reflexivity.
  - cbn [concat length]. rewrite len_app, IH, response_frame_length. lia.
Qed.

(** Whatever the peer sends, the handler returns, and what it has written
    by then is a sequence of whole response frames, 23 bytes each: never a
    partial frame, never anything else. *)
Theorem handleConn_writes_whole_frames (stream : list byte) :
  exists st o frames,
    handleConn stream = Some (st, o)
    /\ written (trace st) = concat frames
    /\ Forall is_response frames
    /\ len (written (trace st)) = 23 * Z.of_nat (length frames).
Proof.
  destruct (handleConn_loop_returns (S (length stream)) (mkConn stream []))
    as [[st o] H]; [cbn [inp]; lia|].
  destruct (handleConn_loop_output _ _ _ _ H) as (frames & W & F).
  cbn [trace written app] in W.
  exists st, o, frames. unfold handleConn. repeat split; auto.
  rewrite W. apply len_concat_responses, F.
Qed.

(** ** Streams that end early *)

(** At any point of a connection, fewer than four bytes left on the stream,
    none included, end the handler silently: the bytes are consumed and
    nothing is written. *)
Theorem truncated_length_closes (fuel : nat) (st : conn) :
  len (inp st) < 4 ->
  handleConn_loop (S fuel) st
  = Some (mkConn [] (trace st ++ [EvReadLen]), ConnEOF)
  /\ written (trace st ++ [EvReadLen]) = written (trace st).
Proof.
  intros H. cbn [handleConn_loop]. unfold serveFrame, ReadFull.
  destruct (Z.leb_spec 4 (len (inp st))); [lia|].
  split; [reflexivity|]. rewrite written_app. apply app_nil_r.
Qed.

(** At any point of a connection, an accepted length followed by fewer
    payload bytes than it announces: the handler has allocated a buffer of
    the announced size, consumes what is left of the stream and returns
    without writing. *)
Theorem truncated_payload_closes
    (fuel : nat) (st : conn) (lenBuf rest : list byte) :
  len lenBuf = 4 ->
  inp st = lenBuf ++ rest ->
  0 <= frameSize_of lenBuf <= maxFrameSize ->
  len rest < frameSize_of lenBuf ->
  handleConn_loop (S fuel) st
  = Some (mkConn [] (trace st ++ [EvReadLen;
                                  EvAllocPayload (frameSize_of lenBuf);
                                  EvReadPayload (frameSize_of lenBuf)]),
          PayloadReadError)
  /\ written (trace st ++ [EvReadLen;
                           EvAllocPayload (frameSize_of lenBuf);
                           EvReadPayload (frameSize_of lenBuf)])
     = written (trace st).
Proof.
  intros H4 Hin Hn Hs. cbn [handleConn_loop]. unfold serveFrame.
  rewrite Hin, (ReadFull_app 4 lenBuf rest H4).
  destruct (Uint32_lenBuf lenBuf H4) as (u & -> & ->).
  destruct (Z.ltb_spec (frameSize_of lenBuf) 0); [lia|].
  destruct (Z.ltb_spec maxFrameSize (frameSize_of lenBuf)); [lia|].
  cbn [inp log trace]. unfold ReadFull.
  destruct (Z.leb_spec (frameSize_of lenBuf) (len rest)); [lia|].
  unfold log. cbn [trace]. split.
  - rewrite <- !app_assoc. reflexivity.
  - rewrite written_app. cbn [written]. apply app_nil_r.
Qed.

(** ** Several requests on one connection *)

Lemma frameSize_of_be32 (n : Z) :
  is_int32 n -> frameSize_of (be32 n) = n.
Proof.
  intros H. unfold frameSize_of, int32_at, byte_at, be32. cbn [nth Nat.add].
  rewrite be32_value. apply to_int32_mod, H.
Qed.

Lemma handleConn_loop_frames (ps : list (list byte)) :
  Forall servable ps ->
  forall fuel st rest,
    inp st = concat (map frame ps) ++ rest ->
    exists tr,
      written tr = concat (map reply ps)
      /\ handleConn_loop (length ps + fuel) st
         = handleConn_loop fuel (mkConn rest (trace st ++ tr)).
Proof.
  induction 1 as [|p ps [Hmax (h & c' & Hp)] _ IH]; intros fuel st rest Hin.
  - exists []. cbn [map concat app length Nat.add] in *.
    rewrite app_nil_r. split; [reflexivity|].
    destruct st as [i t]. cbn [inp trace] in *. subst. reflexivity.
  - cbn [map concat] in Hin. unfold frame at 1 in Hin.
    rewrite <- !app_assoc in Hin.
    pose proof (len_nonneg p) as P.
    assert (F : frameSize_of (be32 (len p)) = len p)
      by (apply frameSize_of_be32; unfold is_int32, maxFrameSize in *; lia).
    pose proof (serveFrame_frame st (be32 (len p)) p
                  (concat (map frame ps) ++ rest) eq_refl F Hmax Hin) as S.
    cbv zeta in S. rewrite Hp in S.
    cbn [length Nat.add handleConn_loop]. rewrite S.
    edestruct IH as (tr & W & E); [|rewrite E]; [reflexivity|].
    cbn [log trace].
    exists ([EvReadLen; EvAllocPayload (len p); EvReadPayload (len p);
             EvWrite (response_frame (corrID h)
                        (decideErrCode (apiKey h) (apiVer h)))] ++ tr).
    split.
    + rewrite written_app, W. cbn [written map concat]. rewrite app_nil_r.
      unfold reply at 2. rewrite Hp. reflexivity.
    + rewrite <- !app_assoc. reflexivity.
Qed.

Lemma length_frames (ps : list (list byte)) :
  (4 * length ps <= length (concat (map frame ps)))%nat.
Proof.
  induction ps as [|p ps IH]; [cbn; lia|].
  cbn [map concat length]. unfold frame at 1.
  rewrite !length_app. cbn [be32 length]. lia.
Qed.

(** Requests that arrive back to back are answered one by one, in order:
    when every payload is of accepted size and has a header the decoder
    accepts, the handler writes the responses to the payloads, each with
    the correlation id and the error code of its own request, before it
    looks at what follows on the stream; if nothing follows, that is all it
    writes and it returns at the end of the stream. *)
Theorem handleConn_serves_in_order (ps : list (list byte)) (rest : list byte) :
  Forall servable ps ->
  exists st o more,
    handleConn (concat (map frame ps) ++ rest) = Some (st, o)
    /\ written (trace st) = concat (map reply ps) ++ more
    /\ (rest = [] -> o = ConnEOF /\ more = [] /\ inp st = []).
Proof.
  intros Hps. unfold handleConn.
  pose proof (length_frames ps) as Lf.
  set (stream := concat (map frame ps) ++ rest).
  assert (Ls : length stream = (length (concat (map frame ps)) + length rest)%nat)
    by (unfold stream; apply length_app).
  destruct (handleConn_loop_frames ps Hps
              (S (length stream) - length ps) (mkConn stream []) rest eq_refl)
    as (tr & W & E).
  replace (length ps + (S (length stream) - length ps))%nat
    with (S (length stream)) in E by lia.
  rewrite E. cbn [trace app].
  destruct (handleConn_loop_returns (S (length stream) - length ps)
              (mkConn rest tr)) as [[st o] R]; [cbn [inp]; lia|].
  destruct (handleConn_loop_output _ _ _ _ R) as (frames & Wo & _).
  cbn [trace] in Wo.
  exists st, o, (concat frames). split; [exact R|]. split.
  - rewrite Wo, W. reflexivity.
  - intros ->.
    replace (S (length stream) - length ps)%nat
      with (S (length stream - length ps)) in R by lia.
    cbn [handleConn_loop] in R. unfold serveFrame, ReadFull in R.
    cbn [inp len length Z.of_nat Z.leb Z.compare log trace] in R.
    inversion R. subst st o. unfold log in *. cbn [trace inp] in *.
    rewrite written_app in Wo. cbn [written] in Wo.
    rewrite app_nil_r in Wo.
    repeat split.
    apply (app_inv_head (written tr)). rewrite app_nil_r. symmetry. exact Wo.
Qed.

(** * Round trips of the request header *)

Lemma fixed_fields_length (k v cid : Z) : len (fixed_fields k v cid) = 8.
Proof. reflexivity. Qed.

Lemma fixed_fields_at (k v cid : Z) (tl : list byte) :
  is_int16 k -> is_int16 v -> is_int32 cid ->
  int16_at (fixed_fields k v cid ++ tl) 0 = k
  /\ int16_at (fixed_fields k v cid ++ tl) 2 = v
  /\ int32_at (fixed_fields k v cid ++ tl) 4 = cid.
Proof.
  intros Hk Hv Hc. unfold int16_at, int32_at, byte_at, fixed_fields, be16, be32.
  cbn [app nth Nat.add].
  rewrite !be16_value, be32_value.
  rewrite !to_int16_mod, to_int32_mod by assumption. auto.
Qed.

Lemma firstn_len_app (s tl : list byte) :
  firstn (Z.to_nat (len s)) (s ++ tl) = s.
Proof.
  unfold len. rewrite Nat2Z.id, firstn_app, Nat.sub_diag, firstn_all.
  cbn [firstn]. apply app_nil_r.
Qed.

Lemma parseHeader_legacy (k v cid : Z) (s tl : list byte) :
  is_int16 k -> is_int16 v -> is_int32 cid ->
  len s < 2 ^ 15 ->
  len (fixed_fields k v cid ++ legacy_string s ++ tl) <= max_len ->
  parseHeader (mkCursor (fixed_fields k v cid ++ legacy_string s ++ tl) 0)
  = Ok (mkHeader k v cid s)
       (mkCursor (fixed_fields k v cid ++ legacy_string s ++ tl)
                 (10 + len s)).
Proof.
  intros Hk Hv Hc Hs Hp.
  set (p := fixed_fields k v cid ++ legacy_string s ++ tl) in *.
  pose proof (len_nonneg s) as Ps. pose proof (len_nonneg tl) as Pt.
  assert (Lp : len p = 10 + len s + len tl).
  { unfold p, legacy_string. rewrite !len_app, fixed_fields_length.
    change (len (be16 (len s))) with 2. lia. }
  destruct (fixed_fields_at k v cid (legacy_string s ++ tl) Hk Hv Hc)
    as (Ek & Ev & Ec). fold p in Ek, Ev, Ec.
  rewrite parseHeader_prefix by lia. rewrite Ek, Ev, Ec.
  rewrite (str16_at p 8) by lia. cbv zeta.
  change (Z.to_nat 8) with 8%nat. change (Z.to_nat (8 + 2)) with 10%nat.
  assert (El : int16_at p 8 = len s).
  { unfold p, int16_at, byte_at, fixed_fields, legacy_string, be16, be32.
    cbn [app nth Nat.add]. rewrite be16_value.
    apply to_int16_mod. unfold is_int16. lia. }
  assert (Et : skipn 10 p = s ++ tl) by reflexivity.
  rewrite El, Et.
  destruct (Z.ltb_spec (len s) 0); [lia|].
  destruct (Z.ltb_spec (len p - (8 + 2)) (len s)); [lia|].
  rewrite firstn_len_app. reflexivity.
Qed.

(** A header in the legacy encoding comes back as it was sent, whatever
    request body follows it: the fields, the client id, and the cursor just
    past the client id. *)
Theorem parseHeader_legacy_round_trip (h : header) (tl : list byte) :
  is_int16 (apiKey h) -> is_int16 (apiVer h) -> is_int32 (corrID h) ->
  len (clientID h) < 2 ^ 15 ->
  len (legacy_header h ++ tl) <= max_len ->
  parseHeader (mkCursor (legacy_header h ++ tl) 0)
  = Ok h (mkCursor (legacy_header h ++ tl) (len (legacy_header h))).
Proof.
  destruct h as [k v cid s]. unfold legacy_header. cbn [apiKey apiVer corrID clientID].
  intros Hk Hv Hc Hs Hp. rewrite <- app_assoc in *.
  rewrite (parseHeader_legacy k v cid s tl Hk Hv Hc Hs Hp).
  f_equal. f_equal. unfold legacy_string.
  rewrite !len_app, fixed_fields_length. change (len (be16 (len s))) with 2.
  lia.
Qed.

(** * What the varint reader accepts and rejects *)

Lemma land_127 (c : byte) : Z.land (Z_of_byte c) 127 = Z_of_byte c mod 128.
Proof. change 127 with (Z.ones 7). apply Z.land_ones. lia. Qed.

Lemma pow7_step (i : Z) : 0 <= i -> 2 ^ (7 * (i + 1)) = 2 ^ (7 * i) * 128.
Proof.
  intros H. replace (7 * (i + 1)) with (7 * i + 7) by lia.
  rewrite Z.pow_add_r by lia. reflexivity.
Qed.

Lemma pow7_le (i j : Z) : 0 <= i <= j -> 0 < 2 ^ (7 * i) <= 2 ^ (7 * j).
Proof.
  intros H. split; [apply Z.pow_pos_nonneg; lia|].
  apply Z.pow_le_mono_r; lia.
Qed.

Lemma Uvarint_loop_value (cs : list byte) :
  forall i x t tl,
    Forall continuation cs -> Z_of_byte t < 128 ->
    0 <= i -> i + len cs <= 9 ->
    (i + len cs = 9 -> Z_of_byte t <= 1) ->
    0 <= x < 2 ^ (7 * i) ->
    binary.Uvarint_loop (cs ++ t :: tl) i x (7 * i)
    = (x + 2 ^ (7 * i) * varint_value cs t, i + len cs + 1).
Proof.
  induction cs as [|c cs IH]; intros i x t tl Hcs Ht Hi Hlen Hlast Hx.
  - rewrite len_nil in *. cbn [app binary.Uvarint_loop varint_value].
    unfold binary.MaxVarintLen64.
    pose proof (Z_of_byte_range t) as Rt.
    destruct (Z.eqb_spec i 10); [lia|].
    destruct (Z.ltb_spec (Z_of_byte t) 128); [|lia].
    assert (B : (i =? 10 - 1) && (1 <? Z_of_byte t) = false).
    { destruct (Z.eqb_spec i (10 - 1)); [|reflexivity].
      destruct (Z.ltb_spec 1 (Z_of_byte t)); [lia|reflexivity]. }
    rewrite B. rewrite Z.shiftl_mul_pow2 by lia.
    assert (U : 0 <= Z_of_byte t * 2 ^ (7 * i) < 2 ^ 64).
    { destruct (Z.eq_dec i 9) as [->|Ni].
      - assert (Z_of_byte t <= 1) by lia.
        change (2 ^ (7 * 9)) with (2 ^ 63). lia.
      - pose proof (pow7_le i 8 ltac:(lia)) as P.
        change (2 ^ (7 * 8)) with (2 ^ 56) in P. nia. }
    unfold to_uint64, wrap_unsigned. rewrite Z.mod_small by exact U.
    rewrite Z.lor_comm, lor_mul_pow2 by lia.
    f_equal; lia.
  - rewrite len_cons in *. inversion Hcs as [|? ? Hc Hcs']; subst.
    unfold continuation in Hc. pose proof (Z_of_byte_range c) as Rc.
    pose proof (len_nonneg cs) as Pl.
    cbn [app binary.Uvarint_loop varint_value].
    unfold binary.MaxVarintLen64.
    destruct (Z.eqb_spec i 10); [lia|].
    destruct (Z.ltb_spec (Z_of_byte c) 128); [lia|].
    rewrite land_127, Z.shiftl_mul_pow2 by lia.
    replace (Z_of_byte c mod 128) with (Z_of_byte c - 128)
      by (apply Z.mod_unique with (q := 1); lia).
    pose proof (pow7_le i 8 ltac:(lia)) as P.
    change (2 ^ (7 * 8)) with (2 ^ 56) in P.
    assert (U : 0 <= (Z_of_byte c - 128) * 2 ^ (7 * i) < 2 ^ 64) by nia.
    unfold to_uint64, wrap_unsigned. rewrite Z.mod_small by exact U.
    rewrite Z.lor_comm, lor_mul_pow2 by lia.
    replace (7 * i + 7) with (7 * (i + 1)) by lia.
    rewrite IH; auto; try lia.
    + rewrite pow7_step by lia. f_equal; lia.
    + rewrite pow7_step by lia. nia.
Qed.

Lemma Uvarint_value (cs : list byte) (t : byte) (tl : list byte) :
  Forall continuation cs -> Z_of_byte t < 128 ->
  len cs <= 9 -> (len cs = 9 -> Z_of_byte t <= 1) ->
  binary.Uvarint (cs ++ t :: tl) = (varint_value cs t, len cs + 1).
Proof.
  intros Hcs Ht Hl Hlast. unfold binary.Uvarint.
  pose proof (Uvarint_loop_value cs 0 0 t tl Hcs Ht) as H.
  change (7 * 0) with 0 in H. change (2 ^ 0) with 1 in H.
  rewrite H by lia. f_equal; lia.
Qed.

Lemma uvarint_at_rest (c : cursor) (v n : Z) :
  wf c -> binary.Uvarint (rest c) = (v, n) -> 0 < n ->
  uvarint c = Ok v (moved c n).
Proof.
  intros W E Hn. rewrite uvarint_spec by auto. rewrite E.
  destruct (Z.leb_spec n 0); [lia | reflexivity].
Qed.

(** The varint reader computes the base-128 value, least significant group
    first, of up to nine continuation bytes and a terminating byte (which,
    in tenth place, is at most 1), and moves past exactly those bytes. *)
Theorem uvarint_reads_base128 (c : cursor) (cs : list byte) (t : byte) (tl : list byte) :
  wf c -> rest c = cs ++ t :: tl ->
  Forall continuation cs -> Z_of_byte t < 128 ->
  len cs <= 9 -> (len cs = 9 -> Z_of_byte t <= 1) ->
  uvarint c = Ok (varint_value cs t) (moved c (len cs + 1)).
Proof.
  intros W E Hcs Ht Hl Hlast. pose proof (len_nonneg cs).
  apply uvarint_at_rest; auto; [|lia].
  rewrite E. apply Uvarint_value; auto.
Qed.

Lemma continuation_byte (x : Z) :
  Z_of_byte (byte_of_Z (Z.lor (Z.land x 127) 128)) = 128 + x mod 128.
Proof.
  rewrite Z_of_byte_of_Z.
  change 127 with (Z.ones 7). rewrite Z.land_ones by lia.
  pose proof (Z.mod_pos_bound x (2 ^ 7) ltac:(lia)) as B.
  rewrite Z.lor_comm. change 128 with (1 * 2 ^ 7) at 1.
  rewrite lor_mul_pow2 by lia.
  change (2 ^ 7) with 128 in *. rewrite Z.mod_small; lia.
Qed.

Lemma put_uvarint_upto_shape (n : nat) :
  forall x,
    (0 < n)%nat -> 0 <= x < 2 ^ (7 * Z.of_nat n) ->
    exists cs t,
      put_uvarint_upto n x = cs ++ [t]
      /\ Forall continuation cs /\ Z_of_byte t < 128
      /\ len cs < Z.of_nat n /\ varint_value cs t = x.
Proof.
  induction n as [|n IH]; intros x Hn Hx; [lia|].
  cbn [put_uvarint_upto].
  destruct (Z.ltb_spec x 128) as [Hs|Hs].
  - exists [], (byte_of_Z x). cbn [app varint_value].
    rewrite Z_of_byte_of_Z, Z.mod_small by lia.
    rewrite len_nil. repeat split; auto; lia.
  - assert (N : (0 < n)%nat).
    { destruct n; [|lia]. change (7 * Z.of_nat 1) with 7 in Hx.
      change (2 ^ 7) with 128 in Hx. lia. }
    assert (Hq : 0 <= Z.shiftr x 7 < 2 ^ (7 * Z.of_nat n)).
    { rewrite Z.shiftr_div_pow2 by lia. change (2 ^ 7) with 128.
      replace (7 * Z.of_nat (S n)) with (7 * (Z.of_nat n + 1)) in Hx by lia.
      rewrite pow7_step in Hx by lia.
      split; [apply Z.div_pos; lia|].
      apply Z.div_lt_upper_bound; lia. }
    destruct (IH (Z.shiftr x 7) N Hq) as (cs & t & E & Hcs & Ht & Hl & Hv).
    exists (byte_of_Z (Z.lor (Z.land x 127) 128) :: cs), t.
    rewrite E. cbn [app varint_value]. rewrite len_cons.
    repeat split; auto; try lia.
    + constructor; [|exact Hcs]. unfold continuation.
      rewrite continuation_byte.
      pose proof (Z.mod_pos_bound x 128 ltac:(lia)). lia.
    + rewrite continuation_byte, Hv, Z.shiftr_div_pow2 by lia.
      change (2 ^ 7) with 128.
      pose proof (Z.div_mod x 128 ltac:(lia)). lia.
Qed.

Lemma varint_value_lower (cs : list byte) (t : byte) :
  Forall continuation cs ->
  2 ^ (7 * len cs) * Z_of_byte t <= varint_value cs t.
Proof.
  induction 1 as [|c cs Hc _ IH].
  - rewrite len_nil. cbn [varint_value]. change (2 ^ (7 * 0)) with 1. lia.
  - rewrite len_cons. cbn [varint_value]. unfold continuation in Hc.
    replace (7 * (1 + len cs)) with (7 * (len cs + 1)) by lia.
    rewrite pow7_step by apply len_nonneg. lia.
Qed.

Lemma put_uvarint_encodes (x : Z) : is_uint64 x -> encodes (put_uvarint x) x.
Proof.
  intros [H0 H1]. unfold put_uvarint.
  destruct (put_uvarint_upto_shape 10 x ltac:(lia)) as
    (cs & t & E & Hcs & Ht & Hl & Hv).
  { change (2 ^ (7 * Z.of_nat 10)) with (2 ^ 70). lia. }
  rewrite E. pose proof (len_nonneg cs) as P.
  assert (L : len (cs ++ [t]) = len cs + 1)
    by (rewrite len_app; reflexivity).
  split; [lia|]. intros tl. rewrite <- app_assoc. cbn [app].
  rewrite L, <- Hv. apply Uvarint_value; auto; [lia|].
  intros L9. pose proof (varint_value_lower cs t Hcs) as Lo.
  rewrite L9 in Lo. change (2 ^ (7 * 9)) with (2 ^ 63) in Lo. lia.
Qed.

Lemma put_uvarint_length (x : Z) :
  is_uint64 x -> 1 <= len (put_uvarint x) <= 10.
Proof.
  intros [H0 H1]. unfold put_uvarint.
  destruct (put_uvarint_upto_shape 10 x ltac:(lia)) as
    (cs & t & E & _ & _ & Hl & _).
  { change (2 ^ (7 * Z.of_nat 10)) with (2 ^ 70). lia. }
  rewrite E, len_app. pose proof (len_nonneg cs).
  change (len [t]) with 1. lia.
Qed.

Lemma uvarint_encoded (c : cursor) (bs tl : list byte) (v : Z) :
  wf c -> rest c = bs ++ tl -> encodes bs v ->
  uvarint c = Ok v (moved c (len bs)).
Proof.
  intros W E [Hl Hd]. apply uvarint_at_rest; auto.
  rewrite E. apply Hd.
Qed.

(** Every [uint64] in its standard encoding, of one to ten bytes, is read
    back by the varint reader, which stops right after it. *)
Theorem uvarint_round_trip (c : cursor) (x : Z) (tl : list byte) :
  wf c -> is_uint64 x -> rest c = put_uvarint x ++ tl ->
  uvarint c = Ok x (moved c (len (put_uvarint x)))
  /\ 1 <= len (put_uvarint x) <= 10.
Proof.
  intros W Hx E. split; [|apply put_uvarint_length, Hx].
  apply (uvarint_encoded c (put_uvarint x) tl x W E).
  apply put_uvarint_encodes, Hx.
Qed.

Lemma Uvarint_loop_unterminated (buf : list byte) :
  forall i x s,
    Forall continuation buf -> 0 <= i <= 10 ->
    snd (binary.Uvarint_loop buf i x s) <= 0.
Proof.
  induction buf as [|c buf IH]; intros i x s Hb Hi;
    cbn [binary.Uvarint_loop]; [cbn; lia|].
  inversion Hb as [|? ? Hc Hb']; subst. unfold continuation in Hc.
  unfold binary.MaxVarintLen64.
  destruct (Z.eqb_spec i 10); [cbn [snd]; lia|].
  destruct (Z.ltb_spec (Z_of_byte c) 128); [lia|].
  apply IH; auto; lia.
Qed.

Lemma Uvarint_loop_at_10 (buf : list byte) (x s : Z) :
  snd (binary.Uvarint_loop buf 10 x s) <= 0.
Proof.
  pose proof (Uvarint_loop_count buf 10 x s) as C. cbv zeta in C. lia.
Qed.

Lemma Uvarint_loop_too_long (cs : list byte) :
  forall i x s tl,
    Forall continuation cs -> 0 <= i -> i + len cs = 10 ->
    snd (binary.Uvarint_loop (cs ++ tl) i x s) <= 0.
Proof.
  induction cs as [|c cs IH]; intros i x s tl Hcs Hi Hl.
  - rewrite len_nil in Hl. assert (i = 10) by lia. subst.
    apply Uvarint_loop_at_10.
  - rewrite len_cons in Hl. pose proof (len_nonneg cs).
    inversion Hcs as [|? ? Hc Hcs']; subst. unfold continuation in Hc.
    cbn [app binary.Uvarint_loop]. unfold binary.MaxVarintLen64.
    destruct (Z.eqb_spec i 10); [lia|].
    destruct (Z.ltb_spec (Z_of_byte c) 128); [lia|].
    apply IH; auto; lia.
Qed.

Lemma Uvarint_loop_overflow (cs : list byte) :
  forall i x s t tl,
    Forall continuation cs -> 0 <= i -> i + len cs = 9 ->
    1 < Z_of_byte t ->
    snd (binary.Uvarint_loop (cs ++ t :: tl) i x s) <= 0.
Proof.
  induction cs as [|c cs IH]; intros i x s t tl Hcs Hi Hl Ht.
  - rewrite len_nil in Hl. assert (i = 9) by lia. subst.
    cbn [app binary.Uvarint_loop]. unfold binary.MaxVarintLen64.
    cbn [Z.eqb Z.sub Z.add Z.opp Z.pos_sub Pos.pred_double andb].
    destruct (Z.ltb_spec (Z_of_byte t) 128).
    + destruct (Z.ltb_spec 1 (Z_of_byte t)); [cbn; lia | lia].
    + apply Uvarint_loop_at_10.
  - rewrite len_cons in Hl. pose proof (len_nonneg cs).
    inversion Hcs as [|? ? Hc Hcs']; subst. unfold continuation in Hc.
    cbn [app binary.Uvarint_loop]. unfold binary.MaxVarintLen64.
    destruct (Z.eqb_spec i 10); [lia|].
    destruct (Z.ltb_spec (Z_of_byte c) 128); [lia|].
    apply IH; auto; lia.
Qed.

Lemma uvarint_error (c : cursor) :
  wf c -> snd (binary.Uvarint (rest c)) <= 0 -> uvarint c = Err c.
Proof.
  intros W H. rewrite uvarint_spec by auto.
  destruct (binary.Uvarint (rest c)) as [v n]. cbn [snd] in H.
  destruct (Z.leb_spec n 0); [reflexivity | lia].
Qed.

(** The varint reader reports an error, and stays where it was, when the
    buffer ends before a terminating byte (an empty rest included), when
    ten continuation bytes come in a row, and when the tenth byte
    terminates the integer but is above 1, which would overflow 64 bits. *)
Theorem uvarint_rejects (c : cursor) :
  wf c ->
  (Forall continuation (rest c) -> uvarint c = Err c)
  /\ (forall cs tl, rest c = cs ++ tl -> Forall continuation cs ->
        len cs = 10 -> uvarint c = Err c)
  /\ (forall cs t tl, rest c = cs ++ t :: tl -> Forall continuation cs ->
        len cs = 9 -> 1 < Z_of_byte t -> uvarint c = Err c).
Proof.
  intros W. split; [|split].
  - intros H. apply uvarint_error; auto.
    apply Uvarint_loop_unterminated; auto; lia.
  - intros cs tl E Hcs Hl. apply uvarint_error; auto. rewrite E.
    apply Uvarint_loop_too_long; auto; lia.
  - intros cs t tl E Hcs Hl Ht. apply uvarint_error; auto. rewrite E.
    apply Uvarint_loop_overflow; auto; lia.
Qed.

(** * Round trips of the compact encodings *)

Lemma moved_0 (c : cursor) : moved c 0 = c.
Proof. destruct c as [p o]. unfold moved. cbn [b off]. f_equal. lia. Qed.

Lemma skipn_len_app (s tl : list byte) : skipn (length s) (s ++ tl) = tl.
Proof.
  rewrite skipn_app, skipn_all, Nat.sub_diag. reflexivity.
Qed.

Lemma rest_after (c : cursor) (s tl : list byte) :
  wf c -> rest c = s ++ tl -> rest (moved c (len s)) = tl.
Proof.
  intros W E. unfold len. rewrite rest_moved by auto.
  rewrite E. apply skipn_len_app.
Qed.

Lemma wf_after (c : cursor) (s tl : list byte) :
  wf c -> rest c = s ++ tl -> wf (moved c (len s)).
Proof.
  intros W E. pose proof (len_rest c W) as L. rewrite E, len_app in L.
  pose proof (len_nonneg s). pose proof (len_nonneg tl).
  apply wf_moved; auto; lia.
Qed.

Lemma compactNullableString_encoded (c : cursor) (lb s tl : list byte) :
  wf c -> rest c = lb ++ s ++ tl -> encodes lb (len s + 1) ->
  compactNullableString c = Ok s (moved c (len lb + len s)).
Proof.
  intros W E En.
  pose proof (uvarint_encoded c lb (s ++ tl) (len s + 1) W E En) as U.
  pose proof (len_rest c W) as L. rewrite E, !len_app in L.
  pose proof (len_nonneg s) as Ps. pose proof (len_nonneg tl) as Pt.
  destruct En as [Hl _]. destruct W as [[W0 W1] W2].
  assert (W : wf c) by (unfold wf; auto).
  rewrite (compactNullableString_in_range c _ _ W U) by lia.
  rewrite (rest_after c lb (s ++ tl) W E).
  destruct (Z.eqb_spec (len s + 1) 0); [lia|].
  replace (len s + 1 - 1) with (len s) by lia. rewrite len_app.
  destruct (Z.ltb_spec (len s + len tl) (len s)); [lia|].
  rewrite firstn_len_app, moved_moved. reflexivity.
Qed.

Lemma compactNullableString_null (c : cursor) (lb tl : list byte) :
  wf c -> rest c = lb ++ tl -> encodes lb 0 ->
  compactNullableString c = Ok [] (moved c (len lb)).
Proof.
  intros W E En.
  pose proof (uvarint_encoded c lb tl 0 W E En) as U.
  rewrite (compactNullableString_in_range c _ _ W U) by (unfold max_len; lia).
  reflexivity.
Qed.

Lemma is_uint64_len (c : cursor) (s : list byte) (k : Z) :
  wf c -> len s <= len (rest c) -> 0 <= k <= 1 -> is_uint64 (len s + k).
Proof.
  intros W H Hk. pose proof (len_rest c W) as L.
  destruct W as [[W0 W1] W2]. unfold max_len in W2.
  pose proof (len_nonneg s). unfold is_uint64. lia.
Qed.

(** A compact string, its length plus one as a varint and then its bytes,
    is read back as it was written, with the cursor right after it.  The
    null string (length field 0) and the empty string (length field 1) both
    come back as the empty string. *)
Theorem compactNullableString_round_trip (c : cursor) (s tl : list byte) :
  wf c ->
  (rest c = compact_string s ++ tl ->
     compactNullableString c = Ok s (moved c (len (compact_string s))))
  /\ (rest c = put_uvarint 0 ++ tl ->
        compactNullableString c = Ok [] (moved c 1)).
Proof.
  intros W. split; intros E.
  - unfold compact_string in *. rewrite <- app_assoc in E. rewrite len_app.
    apply (compactNullableString_encoded c _ s tl W E).
    apply put_uvarint_encodes. apply (is_uint64_len c); auto; [|lia].
    rewrite E, !len_app. pose proof (len_nonneg (put_uvarint (len s + 1))).
    pose proof (len_nonneg tl). lia.
  - apply (compactNullableString_null c (put_uvarint 0) tl W E).
    apply put_uvarint_encodes. unfold is_uint64. lia.
Qed.

Lemma Z_iter_of_nat {A} (f : A -> A) (x : A) (n : nat) :
  Z.iter (Z.of_nat n) f x = Nat.iter n f x.
Proof.
  destruct n as [|n]; [reflexivity|].
  cbn [Z.of_nat Z.iter]. rewrite Pos2Nat.inj_iter, SuccNat2Pos.id_succ.
  reflexivity.
Qed.

Lemma field_bytes_length (f : field) :
  is_uint64 (tag f) -> 1 <= len (field_bytes f).
Proof.
  intros H. unfold field_bytes. rewrite !len_app.
  pose proof (put_uvarint_length (tag f) H).
  pose proof (len_nonneg (put_uvarint (len (data f)))).
  pose proof (len_nonneg (data f)). lia.
Qed.

Lemma fields_length (fs : list field) :
  tags_fit fs ->
  Z.of_nat (length fs) <= len (concat (map field_bytes fs)).
Proof.
  induction 1 as [|f fs Hf _ IH]; [reflexivity|].
  cbn [length map concat]. rewrite len_app.
  pose proof (field_bytes_length f Hf). lia.
Qed.

Lemma skipTagged_entry_encoded (c : cursor) (f : field) (tl : list byte) :
  wf c -> rest c = field_bytes f ++ tl -> is_uint64 (tag f) ->
  skipTagged_entry c = Ok tt (moved c (len (field_bytes f))).
Proof.
  intros W E Ht. unfold field_bytes in *. rewrite <- !app_assoc in E.
  set (tb := put_uvarint (tag f)) in *.
  set (sb := put_uvarint (len (data f))) in *.
  pose proof (len_rest c W) as L. rewrite E, !len_app in L.
  pose proof (put_uvarint_length (tag f) Ht) as Lt. fold tb in Lt.
  pose proof (len_nonneg sb) as Psb. pose proof (len_nonneg (data f)) as Pd.
  pose proof (len_nonneg tl) as Ptl.
  assert (Hd : is_uint64 (len (data f))).
  { destruct W as [[W0 W1] W2]. unfold max_len in W2. unfold is_uint64. lia. }
  pose proof (uvarint_encoded c tb _ (tag f) W E
                (put_uvarint_encodes _ Ht)) as U1.
  pose proof (wf_after c tb _ W E) as W1.
  pose proof (rest_after c tb _ W E) as E1.
  pose proof (uvarint_encoded _ sb _ (len (data f)) W1 E1
                (put_uvarint_encodes _ Hd)) as U2.
  pose proof (rest_after _ sb _ W1 E1) as E2.
  rewrite (skipTagged_entry_in_range c _ _ _ _ W U1 U2).
  - rewrite E2, len_app.
    destruct (Z.ltb_spec (len (data f) + len tl) (len (data f))); [lia|].
    rewrite !moved_moved, !len_app. f_equal; f_equal; try lia.
  - destruct W as [[W0 W1'] W2]. lia.
Qed.

Lemma skipTagged_loop_fields (fs : list field) :
  forall c tl,
    wf c -> rest c = concat (map field_bytes fs) ++ tl -> tags_fit fs ->
    skipTagged_loop (Z.of_nat (length fs)) c
    = Ok tt (moved c (len (concat (map field_bytes fs)))).
Proof.
  unfold skipTagged_loop.
  induction fs as [|f fs IH]; intros c tl W E Hf.
  - cbn. rewrite moved_0. reflexivity.
  - inversion Hf as [|? ? Ht Hf']; subst.
    cbn [map concat length] in *. rewrite <- app_assoc in E.
    rewrite Z_iter_of_nat, Nat.iter_succ_r.
    rewrite (skipTagged_entry_encoded c f _ W E Ht).
    rewrite <- Z_iter_of_nat.
    rewrite (IH _ tl (wf_after c _ _ W E) (rest_after c _ _ W E) Hf').
    rewrite moved_moved, len_app. reflexivity.
Qed.

Lemma skipTagged_encoded (c : cursor) (fs : list field) (tl : list byte) :
  wf c -> rest c = tagged_fields fs ++ tl -> tags_fit fs ->
  skipTagged c = Ok tt (moved c (len (tagged_fields fs))).
Proof.
  intros W E Hf. unfold tagged_fields in *. rewrite <- app_assoc in E.
  pose proof (len_rest c W) as L. rewrite E, !len_app in L.
  pose proof (fields_length fs Hf) as Lf.
  pose proof (len_nonneg (put_uvarint (Z.of_nat (length fs)))) as Pc.
  pose proof (len_nonneg tl) as Pt.
  assert (Hc : is_uint64 (Z.of_nat (length fs))).
  { destruct W as [[W0 W1] W2]. unfold max_len in W2. unfold is_uint64. lia. }
  unfold skipTagged, bind.
  rewrite (uvarint_encoded c _ _ _ W E (put_uvarint_encodes _ Hc)).
  rewrite (skipTagged_loop_fields fs _ tl (wf_after c _ _ W E)
             (rest_after c _ _ W E) Hf).
  rewrite moved_moved, len_app. reflexivity.
Qed.

(** A block of tagged fields, the count and then each field as tag, size
    and data, all varints in their standard encoding, is skipped whole: the
    reader stops right after the last field, whatever follows. *)
Theorem skipTagged_round_trip (c : cursor) (fs : list field) (tl : list byte) :
  wf c -> rest c = tagged_fields fs ++ tl -> tags_fit fs ->
  skipTagged c = Ok tt (moved c (len (tagged_fields fs))).
Proof. exact (skipTagged_encoded c fs tl). Qed.

(** A header in the flexible encoding comes back as it was sent, fields,
    client id and cursor right after the tagged fields, provided the legacy
    read of the same bytes returns an error; that read is tried first and its
    success would be final. *)
Theorem parseHeader_flexible_round_trip
    (h : header) (fs : list field) (tl : list byte) (ce : cursor) :
  is_int16 (apiKey h) -> is_int16 (apiVer h) -> is_int32 (corrID h) ->
  tags_fit fs ->
  len (flexible_header h fs ++ tl) <= max_len ->
  str16 (mkCursor (flexible_header h fs ++ tl) 8) = Err ce ->
  parseHeader (mkCursor (flexible_header h fs ++ tl) 0)
  = Ok h (mkCursor (flexible_header h fs ++ tl) (len (flexible_header h fs))).
Proof.
  destruct h as [k v cid s]. unfold flexible_header.
  cbn [apiKey apiVer corrID clientID]. intros Hk Hv Hc Hf Hp HS.
  rewrite <- !app_assoc in *.
  set (p := fixed_fields k v cid ++ compact_string s ++ tagged_fields fs ++ tl)
    in *.
  pose proof (len_nonneg (compact_string s ++ tagged_fields fs ++ tl)) as P.
  assert (Lp : len p = 8 + len (compact_string s ++ tagged_fields fs ++ tl))
    by (unfold p; rewrite len_app, fixed_fields_length; reflexivity).
  destruct (fixed_fields_at k v cid (compact_string s ++ tagged_fields fs ++ tl)
              Hk Hv Hc) as (Ek & Ev & Ec). fold p in Ek, Ev, Ec.
  rewrite parseHeader_prefix by lia. rewrite HS, Ek, Ev, Ec.
  assert (W8 : wf (mkCursor p 8)) by (apply wf_at; lia).
  assert (E8 : rest (mkCursor p 8)
               = compact_string s ++ tagged_fields fs ++ tl) by reflexivity.
  assert (Hs : encodes (put_uvarint (len s + 1)) (len s + 1)).
  { apply put_uvarint_encodes. apply (is_uint64_len (mkCursor p 8)); auto;
      [|lia].
    rewrite E8. unfold compact_string. rewrite <- app_assoc, !len_app.
    pose proof (len_nonneg (put_uvarint (len s + 1))).
    pose proof (len_nonneg (tagged_fields fs)). pose proof (len_nonneg tl).
    lia. }
  assert (E8' : rest (mkCursor p 8)
                = put_uvarint (len s + 1) ++ s ++ tagged_fields fs ++ tl)
    by (rewrite E8; unfold compact_string; rewrite <- app_assoc; reflexivity).
  unfold flexibleHeader, bind.
  rewrite (compactNullableString_encoded _ _ s _ W8 E8' Hs).
  rewrite <- len_app. fold (compact_string s).
  rewrite (skipTagged_encoded _ fs tl (wf_after _ _ _ W8 E8)
             (rest_after _ _ _ W8 E8) Hf).
  unfold ret, moved. cbn [b off]. f_equal. f_equal.
  rewrite !len_app, fixed_fields_length. lia.
Qed.

(** * Exactly when a decoded length leaves the buffer *)

Lemma lor_lt_pow2 (a c n : Z) :
  0 <= n -> 0 <= a < 2 ^ n -> 0 <= c < 2 ^ n -> 0 <= Z.lor a c < 2 ^ n.
Proof.
  intros Hn Ha Hc.
  assert (E : Z.lor a c = Z.lor a c mod 2 ^ n).
  { apply Z.bits_inj'. intros i Hi.
    destruct (Z.lt_ge_cases i n) as [L|G].
    - rewrite Z.mod_pow2_bits_low by lia. reflexivity.
    - rewrite Z.mod_pow2_bits_high by lia. rewrite Z.lor_spec.
      rewrite <- (Z.mod_small a (2 ^ n)) by lia.
      rewrite <- (Z.mod_small c (2 ^ n)) by lia.
      rewrite !Z.mod_pow2_bits_high by lia. reflexivity. }
  rewrite E. apply Z.mod_pos_bound. apply Z.pow_pos_nonneg; lia.
Qed.

Lemma to_uint64_range (z : Z) : is_uint64 (to_uint64 z).
Proof.
  unfold is_uint64, to_uint64, wrap_unsigned. apply Z.mod_pos_bound. lia.
Qed.

Lemma Uvarint_loop_uint64 (buf : list byte) :
  forall i x s, is_uint64 x -> is_uint64 (fst (binary.Uvarint_loop buf i x s)).
Proof.
  assert (Z0 : is_uint64 0) by (unfold is_uint64; lia).
  induction buf as [|v tl IH]; intros i x s Hx; cbn [binary.Uvarint_loop].
  - exact Z0.
  - destruct (i =? binary.MaxVarintLen64); [exact Z0|].
    destruct (Z_of_byte v <? 128).
    + destruct ((i =? binary.MaxVarintLen64 - 1) && (1 <? Z_of_byte v));
        [exact Z0|].
      cbn [fst]. apply lor_lt_pow2; [lia | exact Hx | apply to_uint64_range].
    + apply IH. apply lor_lt_pow2; [lia | exact Hx | apply to_uint64_range].
Qed.

Lemma uvarint_uint64 (c c' : cursor) (v : Z) :
  wf c -> uvarint c = Ok v c' -> is_uint64 v.
Proof.
  intros W H. rewrite uvarint_spec in H by auto.
  assert (Z0 : is_uint64 0) by (unfold is_uint64; lia).
  pose proof (Uvarint_loop_uint64 (rest c) 0 0 0 Z0) as N.
  fold (binary.Uvarint (rest c)) in N.
  destruct (binary.Uvarint (rest c)) as [v' n]. cbn [fst] in N.
  destruct (n <=? 0); inversion H. subst. exact N.
Qed.

(** The [int] that a [uint64] converts to. *)
Lemma to_int_uint64 (z : Z) :
  is_uint64 z ->
  to_int (to_uint64 z) = if z <? 2 ^ 63 then z else z - 2 ^ 64.
Proof.
  intros [H0 H1]. unfold to_uint64, wrap_unsigned.
  rewrite Z.mod_small by lia. unfold to_int, wrap_signed.
  change (2 ^ (64 - 1)) with (2 ^ 63).
  destruct (Z.ltb_spec z (2 ^ 63)).
  - rewrite Z.mod_small; lia.
  - replace (z + 2 ^ 63) with (z - 2 ^ 63 + 1 * 2 ^ 64) by lia.
    rewrite Z.mod_add, Z.mod_small; lia.
Qed.

Lemma to_int_of_uint64 (z : Z) :
  is_uint64 z -> to_int z = if z <? 2 ^ 63 then z else z - 2 ^ 64.
Proof.
  intros H. rewrite <- (to_int_uint64 z H).
  unfold to_uint64, wrap_unsigned. destruct H. rewrite Z.mod_small by lia.
  reflexivity.
Qed.

(** The position an [int] sum wraps to when it passes 2^63. *)
Lemma to_int_overflow (z : Z) :
  2 ^ 63 <= z < 2 ^ 64 -> to_int z = z - 2 ^ 64.
Proof.
  intros H. unfold to_int, wrap_signed. change (2 ^ (64 - 1)) with (2 ^ 63).
  replace (z + 2 ^ 63) with (z - 2 ^ 63 + 1 * 2 ^ 64) by lia.
  rewrite Z.mod_add, Z.mod_small; lia.
Qed.

Lemma compactNullableString_cases (c c1 : cursor) (n1 : Z) :
  wf c -> uvarint c = Ok n1 c1 ->
  (off c1 + (n1 - 1) < 2 ^ 63 ->
     compactNullableString c
     = if n1 =? 0 then Ok [] c1
       else if len (rest c1) <? n1 - 1 then Err c1
       else Ok (firstn (Z.to_nat (n1 - 1)) (rest c1)) (moved c1 (n1 - 1)))
  /\ (2 ^ 63 <= off c1 + (n1 - 1) -> compactNullableString c = Panic).
Proof.
  intros W U.
  pose proof (uvarint_uint64 c c1 n1 W U) as [N0 N1].
  pose proof (wf_after_uvarint c c1 n1 W U) as W1.
  pose proof (len_rest c1 W1) as L.
  destruct W1 as [[A0 A1] A2]. unfold max_len in A2.
  assert (W1 : wf c1) by (unfold wf, max_len; auto).
  assert (E : compactNullableString c
              = (if n1 =? 0 then ret []
                 else
                   let n := to_int (to_uint64 (n1 - 1)) in
                   need n ;;;
                   s <- slicing (fun c => slice (b c) (off c)
                                            (to_int (off c + n))) ;;
                   advance n ;;;
                   ret s) c1).
  { unfold compactNullableString. unfold bind at 1. rewrite U. reflexivity. }
  rewrite E. clear E.
  destruct (Z.eqb_spec n1 0) as [->|Nz]; [split; [reflexivity | lia]|].
  assert (Hu : is_uint64 (n1 - 1)) by (unfold is_uint64; lia).
  cbv zeta. rewrite (to_int_uint64 _ Hu).
  unfold bind, need, slicing, slice, advance, ret. cbv beta.
  split; intros H.
  - destruct (Z.ltb_spec (n1 - 1) (2 ^ 63)); [|lia].
    rewrite !to_int_small by lia.
    destruct (Z.ltb_spec (len (b c1)) (off c1 + (n1 - 1)));
      destruct (Z.ltb_spec (len (rest c1)) (n1 - 1)); try lia; [reflexivity|].
    cbv beta iota. rewrite ?to_int_small by lia.
    destruct (Z.leb_spec 0 (off c1)); [|lia].
    destruct (Z.leb_spec (off c1) (off c1 + (n1 - 1))); [|lia].
    destruct (Z.leb_spec (off c1 + (n1 - 1)) (len (b c1))); [|lia].
    cbn [andb]. rewrite ?to_int_small by lia. unfold moved, rest.
    replace (off c1 + (n1 - 1) - off c1) with (n1 - 1) by lia. reflexivity.
  - destruct (Z.ltb_spec (n1 - 1) (2 ^ 63)).
    + rewrite !to_int_overflow by lia.
      destruct (Z.ltb_spec (len (b c1)) (off c1 + (n1 - 1) - 2 ^ 64)); [lia|].
      cbv beta iota. rewrite ?to_int_overflow by lia.
      destruct (Z.leb_spec 0 (off c1)); [|lia].
      destruct (Z.leb_spec (off c1) (off c1 + (n1 - 1) - 2 ^ 64)); [lia|].
      reflexivity.
    + rewrite !to_int_small by lia.
      destruct (Z.ltb_spec (len (b c1)) (off c1 + (n1 - 1 - 2 ^ 64))); [lia|].
      cbv beta iota. rewrite ?to_int_small by lia.
      destruct (Z.leb_spec 0 (off c1)); [|lia].
      destruct (Z.leb_spec (off c1) (off c1 + (n1 - 1 - 2 ^ 64))); [lia|].
      reflexivity.
Qed.

(** [compactNullableString] panics exactly when the position after the
    length field plus the announced length reaches 2^63.  Below that it
    returns the announced bytes, or an error when the buffer is short. *)
Theorem compactNullableString_panics_iff (c c1 : cursor) (n1 : Z) :
  wf c -> uvarint c = Ok n1 c1 ->
  (compactNullableString c = Panic <-> 2 ^ 63 <= off c1 + (n1 - 1)).
Proof.
  intros W U. destruct (compactNullableString_cases c c1 n1 W U) as [A B].
  split; [|exact B].
  intros P. destruct (Z.lt_ge_cases (off c1 + (n1 - 1)) (2 ^ 63)) as [S|S];
    [|exact S].
  rewrite (A S) in P. repeat destruct (_ =? _); repeat destruct (_ <? _);
    discriminate.
Qed.

Lemma skipTagged_entry_cases (c c1 c2 : cursor) (t sz : Z) :
  wf c -> uvarint c = Ok t c1 -> uvarint c1 = Ok sz c2 ->
  (off c2 + sz < 2 ^ 63 ->
     skipTagged_entry c
     = if len (rest c2) <? sz then Err c2 else Ok tt (moved c2 sz))
  /\ (2 ^ 63 <= off c2 + sz ->
        skipTagged_entry c = Ok tt (moved c2 (sz - 2 ^ 64))).
Proof.
  intros W U1 U2.
  pose proof (wf_after_uvarint c c1 t W U1) as W1.
  pose proof (uvarint_uint64 c1 c2 sz W1 U2) as Hu.
  pose proof (wf_after_uvarint c1 c2 sz W1 U2) as W2.
  pose proof (len_rest c2 W2) as L.
  destruct W2 as [[A0 A1] A2]. unfold max_len in A2.
  assert (E : skipTagged_entry c
              = (need (to_int sz) ;;; advance (to_int sz)) c2).
  { unfold skipTagged_entry. unfold bind at 1. rewrite U1.
    unfold bind at 1. rewrite U2. reflexivity. }
  rewrite E. clear E.
  rewrite (to_int_of_uint64 sz Hu). destruct Hu as [S0 S1].
  unfold bind, need, advance, moved. split; intros H.
  - destruct (Z.ltb_spec sz (2 ^ 63)); [|lia].
    rewrite !to_int_small by lia.
    destruct (Z.ltb_spec (len (b c2)) (off c2 + sz));
      destruct (Z.ltb_spec (len (rest c2)) sz); try lia; [reflexivity|].
    cbv beta iota. rewrite ?to_int_small by lia. reflexivity.
  - destruct (Z.ltb_spec sz (2 ^ 63)).
    + rewrite !to_int_overflow by lia.
      destruct (Z.ltb_spec (len (b c2)) (off c2 + sz - 2 ^ 64)); [lia|].
      cbv beta iota. rewrite ?to_int_overflow by lia.
      f_equal; f_equal; lia.
    + rewrite !to_int_small by lia.
      destruct (Z.ltb_spec (len (b c2)) (off c2 + (sz - 2 ^ 64))); [lia|].
      cbv beta iota. rewrite ?to_int_small by lia. reflexivity.
Qed.

(** One tagged field, once its tag and size are read: if the position plus
    the declared size stays below 2^63, the field is skipped exactly, or an
    error is returned when the buffer is short; from 2^63 on, the call
    reports success and the position has moved backwards, by 2^64 minus the
    declared size. *)
Theorem skipTagged_entry_exact (c c1 c2 : cursor) (t sz : Z) :
  wf c -> uvarint c = Ok t c1 -> uvarint c1 = Ok sz c2 ->
  (off c2 + sz < 2 ^ 63 ->
     skipTagged_entry c
     = if len (rest c2) <? sz then Err c2 else Ok tt (moved c2 sz))
  /\ (2 ^ 63 <= off c2 + sz ->
        skipTagged_entry c = Ok tt (moved c2 (sz - 2 ^ 64))
        /\ off (moved c2 (sz - 2 ^ 64)) < off c2).
Proof.
  intros W U1 U2. destruct (skipTagged_entry_cases c c1 c2 t sz W U1 U2) as [A B].
  split; [exact A|]. intros H. split; [exact (B H)|].
  pose proof (uvarint_uint64 c1 c2 sz (wf_after_uvarint c c1 t W U1) U2) as [_ S].
  cbn [off moved]. lia.
Qed.

(** [need] is the bounds check of every reader: for a count that fits it
    succeeds exactly when that many bytes are left, and for a negative
    count it always succeeds. *)
Theorem need_accepts (c : cursor) (n : Z) :
  wf c ->
  (0 <= n < max_len -> (need n c = Ok tt c <-> n <= len (rest c)))
  /\ (0 <= n < max_len -> (need n c = Err c <-> len (rest c) < n))
  /\ (- 2 ^ 63 <= n < 0 -> need n c = Ok tt c).
Proof.
  intros W. pose proof (len_rest c W) as L.
  split; [|split]; intros Hn.
  - rewrite need_exact by auto.
    destruct (Z.ltb_spec (len (b c)) (off c + n)); split; intros Q;
      try discriminate; try lia; reflexivity.
  - rewrite need_exact by auto.
    destruct (Z.ltb_spec (len (b c)) (off c + n)); split; intros Q;
      try discriminate; try lia; reflexivity.
  - destruct W as [[W0 W1] W2]. unfold max_len in W2. unfold need.
    rewrite to_int_small by lia.
    destruct (Z.ltb_spec (len (b c)) (off c + n)); [lia | reflexivity].
Qed.

(** * A request and its response *)

Lemma handleConn_frames_then_eof (ps : list (list byte)) :
  Forall servable ps ->
  exists st,
    handleConn (concat (map frame ps)) = Some (st, ConnEOF)
    /\ inp st = []
    /\ written (trace st) = concat (map reply ps).
Proof.
  intros Hps. unfold handleConn.
  pose proof (length_frames ps) as Lf.
  set (stream := concat (map frame ps)) in *.
  destruct (handleConn_loop_frames ps Hps
              (S (length stream) - length ps) (mkConn stream []) [])
    as (tr & W & E); [cbn [inp]; symmetry; apply app_nil_r|].
  replace (length ps + (S (length stream) - length ps))%nat
    with (S (length stream)) in E by lia.
  rewrite E. cbn [trace app].
  replace (S (length stream) - length ps)%nat
    with (S (length stream - length ps)) by lia.
  cbn [handleConn_loop]. unfold serveFrame, ReadFull, log.
  cbn [inp len length Z.of_nat Z.leb Z.compare trace].
  eexists. split; [reflexivity|]. cbn [inp trace]. split; [reflexivity|].
  rewrite written_app, W. cbn [written]. apply app_nil_r.
Qed.

(** A request with a legacy header, alone on a connection, is answered with
    the one response frame that echoes its correlation id and carries the
    error code the version policy gives to its api key and version, whatever
    its client id and body are; this holds for every api key, not only 18. *)
Theorem legacy_request_answered (h : header) (body : list byte) :
  is_int16 (apiKey h) -> is_int16 (apiVer h) -> is_int32 (corrID h) ->
  len (clientID h) < 2 ^ 15 ->
  len (legacy_header h ++ body) <= maxFrameSize ->
  exists st,
    handleConn (frame (legacy_header h ++ body)) = Some (st, ConnEOF)
    /\ written (trace st)
       = response_frame (corrID h) (decideErrCode (apiKey h) (apiVer h)).
Proof.
  intros Hk Hv Hc Hs Hp.
  assert (P : parseHeader (mkCursor (legacy_header h ++ body) 0)
              = Ok h (mkCursor (legacy_header h ++ body)
                               (10 + len (clientID h)))).
  { destruct h as [k v cid s]. unfold legacy_header in *.
    cbn [apiKey apiVer corrID clientID] in *. rewrite <- app_assoc in *.
    apply parseHeader_legacy; auto. unfold maxFrameSize, max_len in *. lia. }
  destruct (handleConn_frames_then_eof [legacy_header h ++ body])
    as (st & H & _ & W).
  { constructor; [|constructor]. split; [exact Hp | eauto]. }
  cbn [map concat] in H, W. rewrite app_nil_r in H, W.
  exists st. split; [exact H|]. rewrite W. unfold reply. rewrite P.
  reflexivity.
Qed.

(** * Instances of the further properties *)

Ltac closed_bounds := vm_compute; repeat split; discriminate.

Lemma successful_reads_advance_example :
  wf (mkCursor Examples.payload 8)
  /\ mkCursor Examples.payload 14
     = moved (mkCursor Examples.payload 8) (2 + len [x74; x65; x73; x74])
  /\ wf (mkCursor Examples.payload 14).
Proof.
  assert (W : wf (mkCursor Examples.payload 8)) by closed_bounds.
  split; [exact W|].
  destruct (successful_reads_advance _ W) as (_ & _ & S & _).
  exact (S [x74; x65; x73; x74] (mkCursor Examples.payload 14) eq_refl).
Defined.

Lemma failed_reads_position_example :
  wf (mkCursor Examples.payload_unreadable 8)
  /\ forall c', i16 (mkCursor Examples.payload_unreadable 8) = Err c' ->
                c' = mkCursor Examples.payload_unreadable 8.
Proof.
  assert (W : wf (mkCursor Examples.payload_unreadable 8)) by closed_bounds.
  split; [exact W|].
  destruct (failed_reads_position _ W) as (I & _). exact I.
Defined.

Lemma truncated_length_example :
  len (inp (mkConn [x00; x00] [])) < 4
  /\ handleConn_loop 1 (mkConn [x00; x00] [])
     = Some (mkConn [] [EvReadLen], ConnEOF)
  /\ written [EvReadLen] = [].
Proof.
  assert (H : len (inp (mkConn [x00; x00] [])) < 4) by reflexivity.
  split; [exact H|].
  exact (truncated_length_closes 0 (mkConn [x00; x00] []) H).
Defined.

Lemma truncated_payload_example :
  len [x00; x00; x00; x05] = 4
  /\ 0 <= frameSize_of [x00; x00; x00; x05] <= maxFrameSize
  /\ len [x01] < frameSize_of [x00; x00; x00; x05]
  /\ handleConn_loop 1 (mkConn [x00; x00; x00; x05; x01] [])
     = Some (mkConn [] [EvReadLen; EvAllocPayload 5; EvReadPayload 5],
             PayloadReadError)
  /\ written [EvReadLen; EvAllocPayload 5; EvReadPayload 5] = [].
Proof.
  assert (H4 : len [x00; x00; x00; x05] = 4) by reflexivity.
  assert (Hn : 0 <= frameSize_of [x00; x00; x00; x05] <= maxFrameSize)
    by closed_bounds.
  assert (Hs : len [x01] < frameSize_of [x00; x00; x00; x05]) by reflexivity.
  repeat (split; [assumption|]).
  exact (truncated_payload_closes 0 (mkConn [x00; x00; x00; x05; x01] [])
           [x00; x00; x00; x05] [x01] H4 eq_refl Hn Hs).
Defined.

Lemma servable_example : servable Examples.payload.
Proof.
  split; [closed_bounds|].
  exists (mkHeader 18 4 7 [x74; x65; x73; x74]), (mkCursor Examples.payload 14).
  reflexivity.
Defined.

Lemma handleConn_serves_in_order_example :
  Forall servable [Examples.payload; Examples.payload]
  /\ exists st o more,
       handleConn (concat (map frame [Examples.payload; Examples.payload]) ++ [])
       = Some (st, o)
       /\ written (trace st)
          = concat (map reply [Examples.payload; Examples.payload]) ++ more
       /\ ([] = @nil byte -> o = ConnEOF /\ more = [] /\ inp st = []).
Proof.
  assert (H : Forall servable [Examples.payload; Examples.payload])
    by (repeat constructor; apply servable_example).
  split; [exact H|].
  exact (handleConn_serves_in_order [Examples.payload; Examples.payload] [] H).
Defined.

Lemma parseHeader_legacy_round_trip_example :
  is_int16 18 /\ is_int16 4 /\ is_int32 7
  /\ len [x74; x65; x73; x74] < 2 ^ 15
  /\ parseHeader
       (mkCursor (legacy_header (mkHeader 18 4 7 [x74; x65; x73; x74])
                  ++ [x01; x02]) 0)
     = Ok (mkHeader 18 4 7 [x74; x65; x73; x74])
          (mkCursor (legacy_header (mkHeader 18 4 7 [x74; x65; x73; x74])
                     ++ [x01; x02])
                    (len (legacy_header (mkHeader 18 4 7 [x74; x65; x73; x74])))).
Proof.
  assert (Hk : is_int16 18) by closed_bounds.
  assert (Hv : is_int16 4) by closed_bounds.
  assert (Hc : is_int32 7) by closed_bounds.
  assert (Hs : len [x74; x65; x73; x74] < 2 ^ 15) by reflexivity.
  repeat (split; [assumption|]).
  apply (parseHeader_legacy_round_trip (mkHeader 18 4 7 [x74; x65; x73; x74])
           [x01; x02] Hk Hv Hc Hs).
  closed_bounds.
Defined.

Lemma uvarint_reads_base128_example :
  wf (mkCursor [xac; x02; x00] 0)
  /\ uvarint (mkCursor [xac; x02; x00] 0)
     = Ok 300 (mkCursor [xac; x02; x00] 2).
Proof.
  assert (W : wf (mkCursor [xac; x02; x00] 0)) by closed_bounds.
  split; [exact W|].
  apply (uvarint_reads_base128 (mkCursor [xac; x02; x00] 0) [xac] x02 [x00] W eq_refl).
  - constructor; [closed_bounds | constructor].
  - reflexivity.
  - closed_bounds.
  - intros H. discriminate H.
Defined.

Lemma uvarint_round_trip_example :
  wf (mkCursor (put_uvarint 300 ++ [x00]) 0) /\ is_uint64 300
  /\ uvarint (mkCursor (put_uvarint 300 ++ [x00]) 0)
     = Ok 300 (moved (mkCursor (put_uvarint 300 ++ [x00]) 0)
                     (len (put_uvarint 300)))
  /\ 1 <= len (put_uvarint 300) <= 10.
Proof.
  assert (W : wf (mkCursor (put_uvarint 300 ++ [x00]) 0)) by closed_bounds.
  assert (U : is_uint64 300) by closed_bounds.
  split; [exact W|]. split; [exact U|].
  exact (uvarint_round_trip _ 300 [x00] W U eq_refl).
Defined.

Lemma uvarint_rejects_example :
  wf (mkCursor [x80; x80] 0)
  /\ uvarint (mkCursor [x80; x80] 0) = Err (mkCursor [x80; x80] 0).
Proof.
  assert (W : wf (mkCursor [x80; x80] 0)) by closed_bounds.
  split; [exact W|].
  destruct (uvarint_rejects _ W) as (R & _). apply R.
  repeat constructor; closed_bounds.
Defined.

Lemma compactNullableString_round_trip_example :
  wf (mkCursor (compact_string [x74; x65; x73; x74] ++ [x00]) 0)
  /\ compactNullableString
       (mkCursor (compact_string [x74; x65; x73; x74] ++ [x00]) 0)
     = Ok [x74; x65; x73; x74]
          (moved (mkCursor (compact_string [x74; x65; x73; x74] ++ [x00]) 0)
                 (len (compact_string [x74; x65; x73; x74]))).
Proof.
  assert (W : wf (mkCursor (compact_string [x74; x65; x73; x74] ++ [x00]) 0))
    by closed_bounds.
  split; [exact W|].
  destruct (compactNullableString_round_trip _ [x74; x65; x73; x74] [x00] W)
    as (R & _).
  exact (R eq_refl).
Defined.

Lemma skipTagged_round_trip_example :
  wf (mkCursor (tagged_fields [mkField 1 [xaa; xbb]] ++ [x09]) 0)
  /\ tags_fit [mkField 1 [xaa; xbb]]
  /\ skipTagged (mkCursor (tagged_fields [mkField 1 [xaa; xbb]] ++ [x09]) 0)
     = Ok tt (moved (mkCursor (tagged_fields [mkField 1 [xaa; xbb]] ++ [x09]) 0)
                    (len (tagged_fields [mkField 1 [xaa; xbb]]))).
Proof.
  assert (W : wf (mkCursor (tagged_fields [mkField 1 [xaa; xbb]] ++ [x09]) 0))
    by closed_bounds.
  assert (T : tags_fit [mkField 1 [xaa; xbb]])
    by (repeat constructor; closed_bounds).
  split; [exact W|]. split; [exact T|].
  exact (skipTagged_round_trip _ [mkField 1 [xaa; xbb]] [x09] W eq_refl T).
Defined.

Lemma parseHeader_flexible_round_trip_example :
  is_int16 18 /\ is_int16 4 /\ is_int32 7 /\ tags_fit []
  /\ str16 (mkCursor (flexible_header (mkHeader 18 4 7 [x74; x65; x73; x74]) []
                      ++ []) 8)
     = Err (mkCursor (flexible_header (mkHeader 18 4 7 [x74; x65; x73; x74]) []
                      ++ []) 10)
  /\ parseHeader
       (mkCursor (flexible_header (mkHeader 18 4 7 [x74; x65; x73; x74]) []
                  ++ []) 0)
     = Ok (mkHeader 18 4 7 [x74; x65; x73; x74])
          (mkCursor (flexible_header (mkHeader 18 4 7 [x74; x65; x73; x74]) []
                     ++ [])
                    (len (flexible_header
                            (mkHeader 18 4 7 [x74; x65; x73; x74]) []))).
Proof.
  assert (Hk : is_int16 18) by closed_bounds.
  assert (Hv : is_int16 4) by closed_bounds.
  assert (Hc : is_int32 7) by closed_bounds.
  assert (T : tags_fit []) by constructor.
  assert (S : str16 (mkCursor (flexible_header
                                 (mkHeader 18 4 7 [x74; x65; x73; x74]) []
                               ++ []) 8)
              = Err (mkCursor (flexible_header
                                 (mkHeader 18 4 7 [x74; x65; x73; x74]) []
                               ++ []) 10))
    by reflexivity.
  assert (L : len (flexible_header (mkHeader 18 4 7 [x74; x65; x73; x74]) []
                   ++ []) <= max_len) by closed_bounds.
  repeat (split; [assumption|]).
  exact (parseHeader_flexible_round_trip
           (mkHeader 18 4 7 [x74; x65; x73; x74]) [] [] _ Hk Hv Hc T L S).
Defined.

Lemma compactNullableString_panics_example :
  wf (mkCursor Examples.varint_max 0)
  /\ uvarint (mkCursor Examples.varint_max 0)
     = Ok (2 ^ 64 - 1) (mkCursor Examples.varint_max 10)
  /\ (compactNullableString (mkCursor Examples.varint_max 0) = Panic
      <-> 2 ^ 63 <= 10 + (2 ^ 64 - 1 - 1)).
Proof.
  assert (W : wf (mkCursor Examples.varint_max 0)) by closed_bounds.
  assert (U : uvarint (mkCursor Examples.varint_max 0)
              = Ok (2 ^ 64 - 1) (mkCursor Examples.varint_max 10))
    by reflexivity.
  split; [exact W|]. split; [exact U|].
  exact (compactNullableString_panics_iff _ _ _ W U).
Defined.

Lemma skipTagged_entry_example :
  wf (mkCursor ([x00] ++ Examples.varint_2_63) 0)
  /\ skipTagged_entry (mkCursor ([x00] ++ Examples.varint_2_63) 0)
     = Ok tt (moved (mkCursor ([x00] ++ Examples.varint_2_63) 11)
                    (2 ^ 63 - 2 ^ 64))
  /\ off (moved (mkCursor ([x00] ++ Examples.varint_2_63) 11)
                (2 ^ 63 - 2 ^ 64)) < 11.
Proof.
  assert (W : wf (mkCursor ([x00] ++ Examples.varint_2_63) 0))
    by closed_bounds.
  split; [exact W|].
  destruct (skipTagged_entry_exact
              (mkCursor ([x00] ++ Examples.varint_2_63) 0)
              (mkCursor ([x00] ++ Examples.varint_2_63) 1)
              (mkCursor ([x00] ++ Examples.varint_2_63) 11)
              0 (2 ^ 63) W eq_refl eq_refl) as [_ B].
  apply B. closed_bounds.
Defined.

Lemma need_accepts_example :
  wf (mkCursor [x00; x01] 1)
  /\ need (- 5) (mkCursor [x00; x01] 1) = Ok tt (mkCursor [x00; x01] 1).
Proof.
  assert (W : wf (mkCursor [x00; x01] 1)) by closed_bounds.
  split; [exact W|].
  destruct (need_accepts (mkCursor [x00; x01] 1) (- 5) W) as (_ & _ & N).
  apply N. closed_bounds.
Defined.

Lemma legacy_request_answered_example :
  is_int16 18 /\ is_int16 5 /\ is_int32 7
  /\ exists st,
       handleConn (frame (legacy_header (mkHeader 18 5 7 [x74; x65; x73; x74])
                          ++ [x00]))
       = Some (st, ConnEOF)
       /\ written (trace st) = response_frame 7 (decideErrCode 18 5).
Proof.
  assert (Hk : is_int16 18) by closed_bounds.
  assert (Hv : is_int16 5) by closed_bounds.
  assert (Hc : is_int32 7) by closed_bounds.
  repeat (split; [assumption|]).
  apply (legacy_request_answered (mkHeader 18 5 7 [x74; x65; x73; x74]) [x00]
           Hk Hv Hc); closed_bounds.
Defined.

(** * More on the fixed-width readers and the response *)

(** The fixed-width readers return any value of their type from its
    big-endian two's-complement bytes, negative values included, and move
    2 or 4 bytes on. *)
Theorem fixed_width_round_trip (c : cursor) (z : Z) (tl : list byte) :
  wf c ->
  (is_int16 z -> rest c = be16 z ++ tl -> i16 c = Ok z (moved c 2))
  /\ (is_int32 z -> rest c = be32 z ++ tl -> i32 c = Ok z (moved c 4)).
Proof.
  intros W. split; intros Hz E.
  - apply (i16_be16 c z tl W Hz E).
  - apply (i32_be32 c z tl W Hz E).
Qed.

(** The legacy string reader returns a string of up to 32767 bytes from
    its length-prefixed encoding and stops right after it; any negative
    length, not only -1, reads as the empty string and takes the two
    length bytes alone. *)
Theorem str16_round_trip (c : cursor) (tl : list byte) :
  wf c ->
  (forall s, len s < 2 ^ 15 -> rest c = legacy_string s ++ tl ->
             str16 c = Ok s (moved c (2 + len s)))
  /\ (forall l, - 2 ^ 15 <= l < 0 -> rest c = be16 l ++ tl ->
                str16 c = Ok [] (moved c 2)).
Proof.
  intros W. split.
  - intros s Hs E. rewrite str16_spec by auto. rewrite E.
    unfold legacy_string, be16. cbn [app]. cbv zeta.
    pose proof (len_nonneg s) as P. pose proof (len_nonneg tl) as Q.
    rewrite be16_value, to_int16_mod by (unfold is_int16; lia).
    destruct (Z.ltb_spec (len s) 0); [lia|]. rewrite len_app.
    destruct (Z.ltb_spec (len s + len tl) (len s)); [lia|].
    rewrite firstn_len_app. reflexivity.
  - intros l Hl E. rewrite str16_spec by auto. rewrite E.
    unfold be16. cbn [app]. cbv zeta.
    rewrite be16_value, to_int16_mod by (unfold is_int16; lia).
    destruct (Z.ltb_spec l 0); [reflexivity | lia].
Qed.

(** Whenever a header is decoded, by either strategy, its api key, api
    version and correlation id are the first eight bytes of the payload
    read as big-endian integers, and the response owed to the payload is
    determined by those eight bytes alone: client id, tagged fields and
    request body have no influence on it. *)
Theorem reply_depends_on_fixed_fields (p : list byte) (h : header) (c' : cursor) :
  len p <= max_len ->
  parseHeader (mkCursor p 0) = Ok h c' ->
  8 <= len p
  /\ apiKey h = int16_at p 0 /\ apiVer h = int16_at p 2
  /\ corrID h = int32_at p 4
  /\ reply p = response_frame (int32_at p 4)
                 (decideErrCode (int16_at p 0) (int16_at p 2)).
Proof.
  intros Hp H.
  assert (H8 : 8 <= len p).
  { destruct (Z.lt_ge_cases (len p) 8) as [S|S]; [|exact S].
    destruct (parseHeader_short p S) as [ce E]. congruence. }
  split; [exact H8|].
  assert (F : apiKey h = int16_at p 0 /\ apiVer h = int16_at p 2
              /\ corrID h = int32_at p 4).
  { rewrite parseHeader_prefix in H by lia.
    destruct (str16 (mkCursor p 8)) as [s c1|c1|]; try discriminate.
    - inversion H. auto.
    - unfold flexibleHeader, bind, ret in H.
      destruct (compactNullableString (mkCursor p 8)) as [s c2|c2|];
        try discriminate.
      destruct (skipTagged c2) as [u c3|c3|]; try discriminate.
      inversion H. auto. }
  destruct F as (Fk & Fv & Fc). repeat split; auto.
  unfold reply. rewrite H, Fk, Fv, Fc. reflexivity.
Qed.

Lemma fixed_width_round_trip_example :
  wf (mkCursor (be16 (- 2) ++ [x00]) 0) /\ is_int16 (- 2)
  /\ i16 (mkCursor (be16 (- 2) ++ [x00]) 0)
     = Ok (- 2) (moved (mkCursor (be16 (- 2) ++ [x00]) 0) 2).
Proof.
  assert (W : wf (mkCursor (be16 (- 2) ++ [x00]) 0)) by closed_bounds.
  assert (H : is_int16 (- 2)) by closed_bounds.
  split; [exact W|]. split; [exact H|].
  destruct (fixed_width_round_trip _ (- 2) [x00] W) as [R _].
  exact (R H eq_refl).
Defined.

Lemma str16_round_trip_example :
  wf (mkCursor (be16 (- 7) ++ [x61]) 0)
  /\ str16 (mkCursor (be16 (- 7) ++ [x61]) 0)
     = Ok [] (moved (mkCursor (be16 (- 7) ++ [x61]) 0) 2).
Proof.
  assert (W : wf (mkCursor (be16 (- 7) ++ [x61]) 0)) by closed_bounds.
  split; [exact W|].
  destruct (str16_round_trip _ [x61] W) as [_ R].
  apply (R (- 7)); [closed_bounds | reflexivity].
Defined.

Lemma reply_depends_on_fixed_fields_example :
  len Examples.payload_backwards <= max_len
  /\ 8 <= len Examples.payload_backwards
  /\ reply Examples.payload_backwards = response_frame 7 (decideErrCode 18 4).
Proof.
  assert (L : len Examples.payload_backwards <= max_len) by closed_bounds.
  split; [exact L|].
  destruct (reply_depends_on_fixed_fields Examples.payload_backwards
              (mkHeader 18 4 7 [])
              (mkCursor Examples.payload_backwards (21 - 2 ^ 63)) L eq_refl)
    as (H8 & _ & _ & _ & R).
  split; [exact H8 | exact R].
Defined.
